(** * OutbreakTracking: a shallow embedding of the contract and its properties

    The development follows [blockchain/contracts/OutbreakTracking.sol]
    (Solidity ^0.8, checked arithmetic).  Integers of the contract are
    modelled as [Z] with the range checks of the compiler written out,
    strings as [string] with their bytes as [list ascii], storage arrays
    as lists, and a call as a function from the state to a [result]:
    either the new state with the events it emitted, or the error the
    call reverted with. *)

From Stdlib Require Import ZArith List String Ascii Bool Lia Arith.
From Equations Require Import Equations.
Import ListNotations.

Local Open Scope string_scope.
Local Open Scope list_scope.
Local Open Scope Z_scope.

(** ** Reverts and checked arithmetic *)

Module Evm.

(** What a reverting call carries: the message of a failed [require],
    or the code of a compiler-inserted panic. *)
Inductive error : Type :=
| Revert (reason : string)
| Panic (code : Z).

Definition ARITHMETIC : Z := 17.      (* Panic(0x11): overflow, underflow *)
Definition DIVISION_BY_ZERO : Z := 18. (* Panic(0x12) *)
Definition OUT_OF_BOUNDS : Z := 50.   (* Panic(0x32) *)

Inductive result (A : Type) : Type :=
| Ok (a : A)
| Err (e : error).
Arguments Ok {A} a.
Arguments Err {A} e.

Definition bind {A B} (m : result A) (k : A -> result B) : result B :=
  match m with
  | Ok a => k a
  | Err e => Err e
  end.

Definition require (cond : bool) (reason : string) : result unit :=
  if cond then Ok tt else Err (Revert reason).

Definition is_ok {A} (m : result A) : bool :=
  match m with Ok _ => true | Err _ => false end.

Definition min_int256 : Z := - 2 ^ 255.
Definition max_int256 : Z := 2 ^ 255 - 1.
Definition max_uint256 : Z := 2 ^ 256 - 1.

(** A value of a checked operation, or the arithmetic panic. *)
Definition int256 (z : Z) : result Z :=
  if (min_int256 <=? z) && (z <=? max_int256) then Ok z
  else Err (Panic ARITHMETIC).

Definition uint256 (z : Z) : result Z :=
  if (0 <=? z) && (z <=? max_uint256) then Ok z
  else Err (Panic ARITHMETIC).

Definition uint8 (z : Z) : result Z :=
  if (0 <=? z) && (z <=? 255) then Ok z
  else Err (Panic ARITHMETIC).

Definition addI (a b : Z) : result Z := int256 (a + b).
Definition subI (a b : Z) : result Z := int256 (a - b).
Definition mulI (a b : Z) : result Z := int256 (a * b).
Definition negI (a : Z) : result Z := int256 (- a).
(** Signed division truncates towards zero. *)
Definition divI (a b : Z) : result Z :=
  if b =? 0 then Err (Panic DIVISION_BY_ZERO) else int256 (Z.quot a b).

Definition addU (a b : Z) : result Z := uint256 (a + b).
Definition subU (a b : Z) : result Z := uint256 (a - b).

End Evm.
Import Evm.

Declare Scope evm_scope.
Delimit Scope evm_scope with evm.
Notation "x <- m ;; k" := (bind m (fun x => k))
  (at level 61, m at next level, right associativity) : evm_scope.
Notation "' pat <- m ;; k" := (bind m (fun x => match x with pat => k end))
  (at level 61, pat pattern, m at next level, right associativity) : evm_scope.
Notation "m ;;; k" := (bind m (fun _ => k))
  (at level 61, right associativity) : evm_scope.
Local Open Scope evm_scope.

(** ** Data model *)

Definition address : Type := Z.

Record InfectedIndividual : Type := mkInfectedIndividual {
  individualAddress : address;
  individualLocation : string;
  testResult : bool;
  individualTimestamp : Z
}.

Record OutbreakLocation : Type := mkOutbreakLocation {
  location : string;
  infectedCount : Z;
  timestamp : Z
}.

Record Coordinate : Type := mkCoordinate {
  latitude : Z;
  longitude : Z
}.

(** The storage of the contract. *)
Record State : Type := mkState {
  owner : address;
  outbreakRadius : Z;
  infectedIndividuals : list InfectedIndividual;
  outbreakLocations : list OutbreakLocation
}.

Inductive Event : Type :=
| NewInfection (individual : address) (loc : string) (time : Z)
| PotentialOutbreak (loc : string) (count : Z) (time : Z)
| ProximityAlert (user : address) (userLocation outbreakLocation : string)
                 (distance : Z).

(** What the environment supplies to a call. *)
Record Env : Type := mkEnv {
  msg_sender : address;
  block_timestamp : Z
}.

(** ** Coordinate parser *)

(** [bytes(str)] and [string(bs)]. *)
Definition bytes (s : string) : list ascii := list_ascii_of_string s.
Definition string_of_bytes (bs : list ascii) : string := string_of_list_ascii bs.

(** [uint8(b)] of a byte. *)
Definition byte_code (b : ascii) : Z := Z.of_N (N_of_ascii b).

(** The loop of [parseCoordinate] that looks for the separator: the index
    of the first [','], and [0] when there is none. *)
Fixpoint findComma (locationBytes : list ascii) (i : nat) : nat :=
  match locationBytes with
  | [] => 0%nat
  | b :: rest => if Ascii.eqb b "," then i else findComma rest (S i)
  end.

(** The copying loop of [substring], [i] running over [count] positions;
    reading past the end of [strBytes] is the out-of-bounds panic. *)
Fixpoint substringLoop (strBytes : list ascii) (startIndex i count : nat)
  : result (list ascii) :=
  match count with
  | O => Ok []
  | S count' =>
      match nth_error strBytes (startIndex + i) with
      | None => Err (Panic OUT_OF_BOUNDS)
      | Some b =>
          rest <- substringLoop strBytes startIndex (S i) count' ;;
          Ok (b :: rest)
      end
  end.

Definition substring (str : string) (startIndex length : nat) : result string :=
  result <- substringLoop (bytes str) startIndex 0 length ;;
  Ok (string_of_bytes result).

(** The local variables of the scanning loop of [parseCoordinateValue]. *)
Record Scan : Type := mkScan {
  scanResult : Z;
  decimalMultiplier : Z;
  foundDecimal : bool
}.

Fixpoint scanLoop (strBytes : list ascii) (s : Scan) : result Scan :=
  match strBytes with
  | [] => Ok s
  | b :: rest =>
      if Ascii.eqb b "." then
        scanLoop rest (mkScan (scanResult s) (decimalMultiplier s) true)
      else
        digit <- uint8 (byte_code b - 48) ;;
        require (digit <=? 9) "Invalid character in coordinate" ;;;
        if negb (foundDecimal s) then
          r10 <- mulI (scanResult s) 10 ;;
          r <- addI r10 digit ;;
          scanLoop rest (mkScan r (decimalMultiplier s) false)
        else
          m <- divI (decimalMultiplier s) 10 ;;
          t <- mulI digit m ;;
          r <- addI (scanResult s) t ;;
          scanLoop rest (mkScan r m true)
  end.

Definition parseCoordinateValue (str : string) : result Z :=
  let strBytes := bytes str in
  let '(isNegative, startIndex) :=
    match strBytes with
    | b :: _ => if Ascii.eqb b "-" then (true, 1%nat) else (false, 0%nat)
    | [] => (false, 0%nat)
    end in
  s <- scanLoop (skipn startIndex strBytes) (mkScan 0 1000000 false) ;;
  result <- (if negb (foundDecimal s) then mulI (scanResult s) 1000000
             else Ok (scanResult s)) ;;
  if isNegative then negI result else Ok result.

(** [commaIndex] and the lengths are indices into an in-memory array; they
    are kept in [nat].  The subtraction [locationBytes.length - 1] is only
    evaluated when [commaIndex > 0], where the array is not empty, so the
    truncated subtraction of [nat] never differs from the checked one. *)
Definition parseCoordinate (_location : string) : result Coordinate :=
  let locationBytes := bytes _location in
  let commaIndex := findComma locationBytes 0 in
  require ((0 <? commaIndex)%nat
           && (commaIndex <? List.length locationBytes - 1)%nat)
          "Invalid coordinate format" ;;;
  latStr <- substring _location 0 commaIndex ;;
  lonStr <- substring _location (commaIndex + 1)
                      (List.length locationBytes - commaIndex - 1) ;;
  latitude <- parseCoordinateValue latStr ;;
  longitude <- parseCoordinateValue lonStr ;;
  Ok (mkCoordinate latitude longitude).

(** ** Distance estimator *)

(** Explicit conversions between [int256] and [uint256] reinterpret the
    word: they never revert. *)
Definition toUint256 (i : Z) : Z := i mod 2 ^ 256.
Definition toInt256 (u : Z) : Z := if u <=? max_int256 then u else u - 2 ^ 256.

Definition abs (x : Z) : result Z :=
  if 0 <=? x then Ok x else negI x.

(** The order on unsigned words is well founded; the proof is guarded so
    that the loop below evaluates on closed words. *)
Definition N_lt_guarded : well_founded N.lt :=
  Acc_intro_generator 64 N.lt_wf_0.
#[local] Opaque N_lt_guarded.
#[local] Instance N_lt_wellfounded : WellFounded N.lt := N_lt_guarded.

(** The [while (y < w)] loop of [sqrt] on unsigned words; it ends because
    [w] decreases at every turn.  The division [z / y] panics on [y = 0]
    and the sum is a checked one. *)
Equations? sqrtLoop (z y w : N) : result N by wf w N.lt :=
  sqrtLoop z y w with Equations.Prop.Logic.inspect (N.ltb y w) := {
    | exist _ true Hlt =>
        if N.eqb y 0 then Err (Panic DIVISION_BY_ZERO)
        else if Z.of_N (z / y + y) <=? max_uint256
             then sqrtLoop z ((z / y + y) / 2) y
             else Err (Panic ARITHMETIC)
    | exist _ false _ => Ok w }.
Proof. apply N.ltb_lt in Hlt. exact Hlt. Qed.

Definition sqrt (x : Z) : result Z :=
  if x <=? 0 then Ok 0
  else
    let z := toUint256 x in
    z1 <- addU z 1 ;;
    let y := z1 / 2 in
    w <- sqrtLoop (Z.to_N z) (Z.to_N y) (Z.to_N z) ;;
    Ok (toInt256 (Z.of_N w)).

Definition earthRadius : Z := 6371000.
Definition precision : Z := 1000000.

(** [(deg * 3141592) / (180 * precision)] *)
Definition toRadians (deg : Z) : result Z :=
  n <- mulI deg 3141592 ;;
  d <- mulI 180 precision ;;
  divI n d.

(** [((90 * precision) - abs(coord1.latitude / precision)) * precision
     / (90 * precision)] *)
Definition cosLat1 (coord1 : Coordinate) : result Z :=
  ninety <- mulI 90 precision ;;
  whole <- divI (latitude coord1) precision ;;
  a <- abs whole ;;
  diff <- subI ninety a ;;
  n <- mulI diff precision ;;
  d <- mulI 90 precision ;;
  divI n d.

(** The arithmetic of [calculateDistance], after both strings are parsed. *)
Definition distanceBetween (coord1 coord2 : Coordinate) : result Z :=
  lat1Rad <- toRadians (latitude coord1) ;;
  lon1Rad <- toRadians (longitude coord1) ;;
  lat2Rad <- toRadians (latitude coord2) ;;
  lon2Rad <- toRadians (longitude coord2) ;;
  dLat <- subI lat2Rad lat1Rad ;;
  dLon <- subI lon2Rad lon1Rad ;;
  c <- cosLat1 coord1 ;;
  xn <- mulI dLat (toInt256 earthRadius) ;;
  x <- divI xn precision ;;
  yn <- mulI dLon (toInt256 earthRadius) ;;
  ync <- mulI yn c ;;
  pp <- mulI precision precision ;;
  y <- divI ync pp ;;
  xx <- mulI x x ;;
  yy <- mulI y y ;;
  sum <- addI xx yy ;;
  r <- sqrt sum ;;
  Ok (toUint256 r).

Definition calculateDistance (loc1 loc2 : string) : result Z :=
  coord1 <- parseCoordinate loc1 ;;
  coord2 <- parseCoordinate loc2 ;;
  distanceBetween coord1 coord2.

Definition isWithinRadius (loc1 loc2 : string) (radius : Z) : result (bool * Z) :=
  distance <- calculateDistance loc1 loc2 ;;
  Ok (distance <=? radius, distance).

(** [keccak256(abi.encodePacked(loc1)) == keccak256(abi.encodePacked(loc2))]:
    the hash is taken to be injective, so that the comparison is the
    equality of the two byte strings. *)
Definition compareLocations (loc1 loc2 : string) : bool := String.eqb loc1 loc2.

(** ** Registry, ledger and queries *)

Definition constructor (env : Env) (_radius : Z) : State :=
  mkState (msg_sender env) _radius [] [].

(** First loop of [reportInfection]: the first entry whose location is
    [_location] gets its count incremented and its time refreshed, the
    growth is announced, and the loop is left.  The flag is
    [locationExists]. *)
Fixpoint bumpExisting (now : Z) (_location : string)
  (locs : list OutbreakLocation)
  : result (list OutbreakLocation * bool * list Event) :=
  match locs with
  | [] => Ok ([], false, [])
  | o :: rest =>
      if compareLocations (location o) _location then
        count <- addU (infectedCount o) 1 ;;
        Ok (mkOutbreakLocation (location o) count now :: rest, true,
            [PotentialOutbreak _location count now])
      else
        ' (rest', locationExists, events) <- bumpExisting now _location rest ;;
        Ok (o :: rest', locationExists, events)
  end.

(** Loop of [checkAndMergeOutbreaks] over the entries. *)
Fixpoint mergeLoop (now radius : Z) (_newLocation : string)
  (locs : list OutbreakLocation) : result (list Event) :=
  match locs with
  | [] => Ok []
  | o :: rest =>
      if compareLocations (location o) _newLocation then
        mergeLoop now radius _newLocation rest
      else
        ' (inRadius, _) <- isWithinRadius (location o) _newLocation radius ;;
        events <- mergeLoop now radius _newLocation rest ;;
        Ok (if inRadius : bool
            then PotentialOutbreak _newLocation (infectedCount o) now :: events
            else events)
  end.

Definition checkAndMergeOutbreaks (env : Env) (_newLocation : string)
  (st : State) : result (list Event) :=
  mergeLoop (block_timestamp env) (outbreakRadius st) _newLocation
            (outbreakLocations st).

Definition reportInfection (env : Env) (_individualAddress : address)
  (_location : string) (_testResult : bool) (st : State)
  : result (State * list Event) :=
  if _testResult then
    let now := block_timestamp env in
    let individuals :=
      infectedIndividuals st
      ++ [mkInfectedIndividual _individualAddress _location _testResult now] in
    ' (locs, locationExists, grown) <-
        bumpExisting now _location (outbreakLocations st) ;;
    let '(locs', fresh) :=
      if negb locationExists
      then (locs ++ [mkOutbreakLocation _location 1 now],
            [NewInfection _individualAddress _location now])
      else (locs, []) in
    let st' := mkState (owner st) (outbreakRadius st) individuals locs' in
    nearby <- checkAndMergeOutbreaks env _location st' ;;
    Ok (st', grown ++ fresh ++ nearby)
  else Ok (st, []).

(** The local variables of the loop of [checkProximity]. *)
Record Closest : Type := mkClosest {
  closestDistance : Z;
  closestIndex : nat;
  foundInRadius : bool
}.

Fixpoint proximityLoop (_newLocation : string) (radius : Z)
  (locs : list OutbreakLocation) (i : nat) (c : Closest) : result Closest :=
  match locs with
  | [] => Ok c
  | o :: rest =>
      ' (inRadius, distance) <- isWithinRadius _newLocation (location o) radius ;;
      if inRadius && (distance <? closestDistance c)
      then proximityLoop _newLocation radius rest (S i) (mkClosest distance i true)
      else proximityLoop _newLocation radius rest (S i) c
  end.

Definition checkProximity (st : State) (_newLocation : string)
  : result (bool * string * Z * Z) :=
  c <- proximityLoop _newLocation (outbreakRadius st) (outbreakLocations st)
                     0 (mkClosest max_uint256 0 false) ;;
  if foundInRadius c then
    match nth_error (outbreakLocations st) (closestIndex c) with
    | Some o => Ok (true, location o, infectedCount o, closestDistance c)
    | None => Err (Panic OUT_OF_BOUNDS)
    end
  else Ok (false, "", 0, 0).

Definition reportNewLocation (env : Env) (_location : string) (st : State)
  : result (State * list Event) :=
  ' (withinRadius, outbreakLocation, count, distance) <- checkProximity st _location ;;
  if withinRadius : bool then
    Ok (st, [ProximityAlert (msg_sender env) _location outbreakLocation distance;
             PotentialOutbreak outbreakLocation count (block_timestamp env)])
  else Ok (st, []).

Definition setOutbreakRadius (env : Env) (_newRadius : Z) (st : State)
  : result (State * list Event) :=
  require (msg_sender env =? owner st) "Not authorized" ;;;
  Ok (mkState (owner st) _newRadius (infectedIndividuals st)
              (outbreakLocations st), []).

Definition getInfectedCount (st : State) : Z :=
  Z.of_nat (List.length (infectedIndividuals st)).

Definition getOutbreakLocationsCount (st : State) : Z :=
  Z.of_nat (List.length (outbreakLocations st)).

Definition getAllOutbreakLocations (st : State) : list string * list Z :=
  (map location (outbreakLocations st), map infectedCount (outbreakLocations st)).

(** Loop of [checkExposureRisk]; the pair is [(exposed, exposureCount)]. *)
Fixpoint exposureLoop (currentTime : Z) (_userLocation : string)
  (_timeThreshold radius : Z) (individuals : list InfectedIndividual)
  (acc : bool * Z) : result (bool * Z) :=
  match individuals with
  | [] => Ok acc
  | p :: rest =>
      age <- subU currentTime (individualTimestamp p) ;;
      if age >? _timeThreshold then
        exposureLoop currentTime _userLocation _timeThreshold radius rest acc
      else
        ' (inRadius, _) <-
            isWithinRadius _userLocation (individualLocation p) radius ;;
        if inRadius : bool then
          count <- addU (snd acc) 1 ;;
          exposureLoop currentTime _userLocation _timeThreshold radius rest
                       (true, count)
        else
          exposureLoop currentTime _userLocation _timeThreshold radius rest acc
  end.

Definition checkExposureRisk (env : Env) (st : State) (_userLocation : string)
  (_timeThreshold : Z) : result (bool * Z) :=
  exposureLoop (block_timestamp env) _userLocation _timeThreshold
               (outbreakRadius st) (infectedIndividuals st) (false, 0).

(** ** Calls *)

(** The public functions of the contract, as one type of calls. *)
Inductive Call : Type :=
| ReportInfection (_individualAddress : address) (_location : string)
                  (_testResult : bool)
| CheckProximity (_newLocation : string)
| ReportNewLocation (_location : string)
| SetOutbreakRadius (_newRadius : Z)
| GetInfectedCount
| GetOutbreakLocationsCount
| GetAllOutbreakLocations
| CheckExposureRisk (_userLocation : string) (_timeThreshold : Z).

(** Running a call: the state it leaves and the events it emits, or the
    error it reverts with.  A view function leaves the state as it is. *)
Definition execute (env : Env) (call : Call) (st : State)
  : result (State * list Event) :=
  match call with
  | ReportInfection a l t => reportInfection env a l t st
  | CheckProximity l => checkProximity st l ;;; Ok (st, [])
  | ReportNewLocation l => reportNewLocation env l st
  | SetOutbreakRadius r => setOutbreakRadius env r st
  | GetInfectedCount => Ok (st, [])
  | GetOutbreakLocationsCount => Ok (st, [])
  | GetAllOutbreakLocations => Ok (st, [])
  | CheckExposureRisk l t => checkExposureRisk env st l t ;;; Ok (st, [])
  end.

(** A transaction commits the effects of a call that returns and drops
    those of a call that reverts: the state is the one before the call and
    no event is logged. *)
Definition transact (env : Env) (call : Call) (st : State)
  : State * list Event :=
  match execute env call st with
  | Ok (st', events) => (st', events)
  | Err _ => (st, [])
  end.

(** * Vocabulary of the properties *)

(** A string without separator. *)
Definition commaFree (s : string) : bool :=
  forallb (fun b => negb (Ascii.eqb b ",")) (bytes s).

Definition notDot (b : ascii) : bool := negb (Ascii.eqb b ".").

(** The string without its ['.'] characters. *)
Definition dropDots (s : string) : string :=
  string_of_bytes (filter notDot (bytes s)).

(** What [parseCoordinateValue] does once the sign is taken off. *)
Definition afterSign (isNegative : bool) (body : list ascii) : result Z :=
  s <- scanLoop body (mkScan 0 1000000 false) ;;
  result <- (if negb (foundDecimal s) then mulI (scanResult s) 1000000
             else Ok (scanResult s)) ;;
  if isNegative then negI result else Ok result.

(** The number of ['.'] characters of a string. *)
Definition dotCount (s : string) : nat :=
  List.length (filter (fun b => Ascii.eqb b ".") (bytes s)).

Definition isDot (b : ascii) : bool := Ascii.eqb b ".".

(** An optional leading ['-'] followed by ['.'] characters only. *)
Definition digitless (s : string) : bool :=
  match bytes s with
  | b :: rest => if Ascii.eqb b "-" then forallb isDot rest
                 else forallb isDot (b :: rest)
  | [] => true
  end.

(** The factor as the comment above it documents it,
    [cos(lat) = (90 - |lat|) / 90], on the six-decimal latitude and in
    six-decimal fixed point. *)
Definition cosLat1_documented (lat1 : Z) : Z :=
  Z.quot ((90 * precision - Z.abs lat1) * precision) (90 * precision).

(** The state of the end-to-end scenario: a contract deployed with radius
    5000, then one positive report at ["10.000000,20.000000"]. *)
Definition afterFirstReport (deployer reporter : Env) (who : address) : State :=
  fst (transact reporter (ReportInfection who "10.000000,20.000000" true)
                (constructor deployer 5000)).

(** An entry at another location than [loc]. *)
Definition elsewhere (loc : string) (o : OutbreakLocation) : bool :=
  negb (compareLocations (location o) loc).

(** An entry whose count has room for one more. *)
Definition roomy (o : OutbreakLocation) : bool :=
  (0 <=? infectedCount o) && (infectedCount o <? max_uint256).

(** An entry that a report can touch without failing: its location
    parses and its count has room for one more. *)
Definition sound (o : OutbreakLocation) : bool :=
  is_ok (parseCoordinate (location o)) && roomy o.

(** A ledger record that the exposure query does not skip. *)
Definition inWindow (currentTime _timeThreshold : Z) (p : InfectedIndividual) : bool :=
  currentTime - individualTimestamp p <=? _timeThreshold.

(** A ledger record written at a time that is not after [currentTime]. *)
Definition recordedBy (currentTime : Z) (p : InfectedIndividual) : bool :=
  (0 <=? individualTimestamp p) && (individualTimestamp p <=? currentTime).

(** The loop of [checkProximity] when the distance of every entry is
    known: the same scan on the list of distances. *)
Fixpoint closestOf (radius : Z) (ds : list Z) (i : nat) (c : Closest) : Closest :=
  match ds with
  | [] => c
  | d :: rest =>
      if (d <=? radius) && (d <? closestDistance c)
      then closestOf radius rest (S i) (mkClosest d i true)
      else closestOf radius rest (S i) c
  end.

(** What the loop knows after the distances [seen]: the best entry within
    the radius so far, the first one among equals, or that there is none. *)
Definition bestSoFar (radius : Z) (seen : list Z) (c : Closest) : Prop :=
  if foundInRadius c then
    nth_error seen (closestIndex c) = Some (closestDistance c)
    /\ closestDistance c <= radius
    /\ forall j d, nth_error seen j = Some d -> d <= radius ->
                   closestDistance c <= d
                   /\ (d = closestDistance c -> (closestIndex c <= j)%nat)
  else
    closestDistance c = max_uint256
    /\ forall j d, nth_error seen j = Some d -> radius < d.

(** A registry with a tie: the entries at ["1,0"] and ["3,0"] are both at
    111193 metres from ["2,0"], the entry at ["2,5"] is out of the radius. *)
Definition tiedRegistry : State :=
  mkState 7 200000 []
          [mkOutbreakLocation "2,5" 1 100;
           mkOutbreakLocation "1,0" 4 200;
           mkOutbreakLocation "3,0" 2 300].

(** The registry after a positive report at ["bad-input"] on a fresh
    contract. *)
Definition malformedRegistry : State :=
  fst (transact (mkEnv 8 200) (ReportInfection 9 "bad-input" true)
                (constructor (mkEnv 7 100) 5000)).

(** The entries have pairwise distinct location strings. *)
Definition distinctLocations (st : State) : Prop :=
  NoDup (map location (outbreakLocations st)).

(** From one state to a later one: the ledger has not shrunk, and every
    entry is still at its index, for the same location, with a count that
    has not decreased. *)
Definition grows (st st' : State) : Prop :=
  (List.length (infectedIndividuals st) <= List.length (infectedIndividuals st'))%nat
  /\ forall i o, nth_error (outbreakLocations st) i = Some o ->
                 exists o', nth_error (outbreakLocations st') i = Some o'
                            /\ location o' = location o
                            /\ infectedCount o <= infectedCount o'.

(** The scenario with its callers and times, and continued by a second
    positive report at the same string. *)
Definition firstReported : State :=
  afterFirstReport (mkEnv 7 100) (mkEnv 8 200) 9.

Definition afterSecondReport : State :=
  fst (transact (mkEnv 8 300) (ReportInfection 9 "10.000000,20.000000" true)
                firstReported).

(** The states of a deployed contract: the one the constructor leaves,
    and those that transactions lead to. *)
Inductive reachable : State -> Prop :=
| reachable_constructor (env : Env) (_radius : Z) :
    reachable (constructor env _radius)
| reachable_transact (env : Env) (call : Call) (st : State) :
    reachable st -> reachable (fst (transact env call st)).

(** The bytes ['0'] to ['9']. *)
Definition isDigit (b : ascii) : bool :=
  (48 <=? byte_code b) && (byte_code b <=? 57).

Definition digitsOnly (s : string) : bool := forallb isDigit (bytes s).

(** The values of [int256]. *)
Definition inInt256 (z : Z) : Prop := min_int256 <= z <= max_int256.

(** The number that a byte of digit stands for, the number that a string
    of digits reads as, and what the digits of a fraction weigh when the
    first one weighs a tenth of [multiplier]: with [1000000], the
    six-decimal truncation of the fraction. *)
Definition digitOf (b : ascii) : Z := byte_code b - 48.

Definition wholeValue (acc : Z) (ds : list ascii) : Z :=
  fold_left (fun a b => a * 10 + digitOf b) ds acc.

Fixpoint fractionValue (multiplier : Z) (ds : list ascii) : Z :=
  match ds with
  | [] => 0
  | b :: rest =>
      digitOf b * Z.quot multiplier 10 + fractionValue (Z.quot multiplier 10) rest
  end.

(** A number written with a ['.']: an optional sign, the whole digits,
    the ['.'] and the fraction digits. *)
Definition decimal (isNegative : bool) (whole fraction : string) : string :=
  (if isNegative then "-" else "") ++ whole ++ "." ++ fraction.

(** The arithmetic of the estimator on unbounded integers: the radian
    value of a coordinate, the north-south and east-west offsets in
    metres, with [c] the east-west factor. *)
Definition radiansOf (deg : Z) : Z := Z.quot (deg * 3141592) (180 * precision).

Definition northSouth (coord1 coord2 : Coordinate) : Z :=
  Z.quot ((radiansOf (latitude coord2) - radiansOf (latitude coord1)) * earthRadius)
         precision.

Definition eastWest (c : Z) (coord1 coord2 : Coordinate) : Z :=
  Z.quot ((radiansOf (longitude coord2) - radiansOf (longitude coord1))
          * earthRadius * c)
         (precision * precision).

(** A coordinate within 90 degrees of latitude and 180 of longitude. *)
Definition nominal (c : Coordinate) : Prop :=
  Z.abs (latitude c) <= 90 * precision /\ Z.abs (longitude c) <= 180 * precision.

(** A string whose first byte is ['-']. *)
Definition startsWithMinus (s : string) : bool :=
  match bytes s with
  | b :: _ => Ascii.eqb b "-"
  | [] => false
  end.

(** The errors of the parser. *)
Definition invalidFormat : error := Revert "Invalid coordinate format".
Definition invalidCharacter : error := Revert "Invalid character in coordinate".

(** A ledger record within [radius] of [loc], as far as the estimator
    returns. *)
Definition exposes (loc : string) (radius : Z) (p : InfectedIndividual) : bool :=
  match calculateDistance loc (individualLocation p) with
  | Ok d => d <=? radius
  | Err _ => false
  end.

(** A ledger record that the exposure query can measure: one it skips, or
    one whose distance to [loc] is computed. *)
Definition measurable (currentTime threshold : Z) (loc : string)
  (p : InfectedIndividual) : bool :=
  negb (inWindow currentTime threshold p)
  || is_ok (calculateDistance loc (individualLocation p)).

(** The number of ledger records that count for an exposure query. *)
Definition exposures (currentTime threshold radius : Z) (loc : string)
  (individuals : list InfectedIndividual) : Z :=
  Z.of_nat (List.length
              (filter (fun p => inWindow currentTime threshold p
                                && exposes loc radius p) individuals)).

(** An entry at the location [loc], and whether the registry has one. *)
Definition atLocation (loc : string) (o : OutbreakLocation) : bool :=
  compareLocations (location o) loc.

Definition known (loc : string) (locs : list OutbreakLocation) : bool :=
  existsb (atLocation loc) locs.

(** What a positive report at [loc] makes of an entry: one more count and
    the time of the report at [loc], the entry itself elsewhere. *)
Definition bump (now : Z) (loc : string) (o : OutbreakLocation) : OutbreakLocation :=
  if atLocation loc o
  then mkOutbreakLocation (location o) (infectedCount o + 1) now
  else o.

(** An entry at another location string whose distance to [loc] is
    computed and within [radius]. *)
Definition nearTo (loc : string) (radius : Z) (o : OutbreakLocation) : bool :=
  elsewhere loc o
  && match calculateDistance (location o) loc with
     | Ok d => d <=? radius
     | Err _ => false
     end.

(** The events of a positive report at [loc]: the growth of the entry at
    [loc] with its new count, or the new infection; then one potential
    outbreak for every near entry, with the count of that entry. *)
Definition grownEvents (now : Z) (loc : string) (locs : list OutbreakLocation)
  : list Event :=
  map (fun o => PotentialOutbreak loc (infectedCount o + 1) now)
      (filter (atLocation loc) locs).

Definition nearbyEvents (now radius : Z) (loc : string)
  (locs : list OutbreakLocation) : list Event :=
  map (fun o => PotentialOutbreak loc (infectedCount o) now)
      (filter (nearTo loc radius) locs).

(** The number of ledger records at a location string, and the total of
    the counts of the entries. *)
Definition recordsAt (loc : string) (ledger : list InfectedIndividual) : Z :=
  Z.of_nat (List.length
              (filter (fun p => String.eqb (individualLocation p) loc) ledger)).

Definition totalCount (locs : list OutbreakLocation) : Z :=
  fold_right (fun o acc => infectedCount o + acc) 0 locs.

(** The registry agrees with the ledger: every entry counts the records at
    its location, every record is a positive one at the location of an
    entry, and the counts add up to the length of the ledger. *)
Definition consistent (st : State) : Prop :=
  Forall (fun o => infectedCount o
                   = recordsAt (location o) (infectedIndividuals st))
         (outbreakLocations st)
  /\ Forall (fun p => testResult p = true
                      /\ In (individualLocation p)
                            (map location (outbreakLocations st)))
            (infectedIndividuals st)
  /\ totalCount (outbreakLocations st) = getInfectedCount st.

(** The time of the last ledger record at a location string. *)
Definition lastRecordTime (loc : string) (ledger : list InfectedIndividual)
  : option Z :=
  match rev (filter (fun p => String.eqb (individualLocation p) loc) ledger) with
  | p :: _ => Some (individualTimestamp p)
  | [] => None
  end.

(** The states of a contract whose blocks are dated in order: [datedBy t st]
    when [st] is reached with [t] the time of the last block. *)
Inductive datedBy : Z -> State -> Prop :=
| dated_constructor (env : Env) (_radius : Z) :
    0 <= block_timestamp env ->
    datedBy (block_timestamp env) (constructor env _radius)
| dated_transact (t : Z) (env : Env) (call : Call) (st : State) :
    datedBy t st -> t <= block_timestamp env ->
    datedBy (block_timestamp env) (fst (transact env call st)).

(** A location string that parses to a coordinate within 90 degrees of
    latitude and 180 of longitude. *)
Definition locatable (loc : string) : bool :=
  match parseCoordinate loc with
  | Ok c => (Z.abs (latitude c) <=? 90 * precision)
            && (Z.abs (longitude c) <=? 180 * precision)
  | Err _ => false
  end.


(** * Properties *)

Example parse_whole : parseCoordinate "35,139" = Ok (mkCoordinate 35000000 139000000).
Proof. reflexivity. Qed.

(** ** Strings and their bytes *)

Lemma bytes_app (s1 s2 : string) :
  bytes (s1 ++ s2)%string = bytes s1 ++ bytes s2.
Proof.
  unfold bytes. induction s1 as [|c s1 IH]; simpl; [reflexivity|].
  now rewrite IH.
Qed.

Lemma string_of_bytes_bytes (s : string) : string_of_bytes (bytes s) = s.
Proof. apply string_of_list_ascii_of_string. Qed.

Lemma bytes_string_of_bytes (bs : list ascii) : bytes (string_of_bytes bs) = bs.
Proof. apply list_ascii_of_string_of_list_ascii. Qed.

Lemma skipn_nth_error {A} (l : list A) (k : nat) (x : A) :
  nth_error l k = Some x -> skipn k l = x :: skipn (S k) l.
Proof.
  revert l. induction k as [|k IH]; intros [|y l] H; simpl in *; try discriminate.
  - now inversion H.
  - now apply IH.
Qed.

Lemma substringLoop_in_range (count : nat) :
  forall strBytes startIndex i,
    (startIndex + i + count <= List.length strBytes)%nat ->
    substringLoop strBytes startIndex i count
    = Ok (firstn count (skipn (startIndex + i) strBytes)).
Proof.
  induction count as [|count IH]; intros bs st i H; simpl; [reflexivity|].
  destruct (nth_error bs (st + i)) as [b|] eqn:E.
  - rewrite IH by lia. simpl.
    rewrite (skipn_nth_error _ _ _ E). simpl.
    now replace (st + S i)%nat with (S (st + i)) by lia.
  - apply nth_error_None in E. lia.
Qed.

Lemma findComma_app (a b : list ascii) (i : nat) :
  forallb (fun c => negb (Ascii.eqb c ",")) a = true ->
  findComma (a ++ "," :: b)%char i = (i + List.length a)%nat.
Proof.
  revert i. induction a as [|c a IH]; intros i H; simpl in *.
  - lia.
  - apply andb_prop in H as [Hc Ha].
    destruct (Ascii.eqb c ","); [discriminate|].
    rewrite IH by assumption. lia.
Qed.

(** On a string with a separator, [parseCoordinate] parses what stands
    before the first [','] and what stands after it. *)
Lemma parseCoordinate_split (lat lon : string) :
  commaFree lat = true ->
  parseCoordinate (lat ++ "," ++ lon)
  = if ((0 <? String.length lat) && (0 <? String.length lon))%nat
    then (latitude <- parseCoordinateValue lat ;;
          longitude <- parseCoordinateValue lon ;;
          Ok (mkCoordinate latitude longitude))
    else Err (Revert "Invalid coordinate format").
Proof.
  intros Hfree. unfold parseCoordinate, substring.
  assert (Hlen : forall s, String.length s = List.length (bytes s)).
  { intros s. induction s; simpl; congruence. }
  rewrite !Hlen, !bytes_app. change (bytes ",") with [","%char]. simpl app.
  rewrite findComma_app by exact Hfree. simpl Nat.add.
  rewrite length_app. simpl List.length.
  set (n := List.length (bytes lat)). set (m := List.length (bytes lon)).
  replace (n <? n + S m - 1)%nat with (0 <? m)%nat
    by (destruct (Nat.ltb_spec 0 m), (Nat.ltb_spec n (n + S m - 1)); lia).
  destruct ((0 <? n)%nat && (0 <? m)%nat) eqn:E; simpl; [|reflexivity].
  rewrite !substringLoop_in_range by (rewrite length_app; simpl; fold n m; lia).
  simpl.
  replace (firstn n (bytes lat ++ ","%char :: bytes lon)) with (bytes lat)
    by (unfold n; now rewrite firstn_app, Nat.sub_diag, firstn_all, app_nil_r).
  replace (skipn (n + 1 + 0) (bytes lat ++ ","%char :: bytes lon)) with (bytes lon)
    by (rewrite skipn_app, skipn_all2 by (fold n; lia);
        now replace (n + 1 + 0 - List.length (bytes lat))%nat with 1%nat
          by (fold n; lia)).
  replace (n + S m - n - 1)%nat with m by lia.
  unfold m. rewrite firstn_all, !string_of_bytes_bytes. reflexivity.
Qed.

Lemma length_bytes (s : string) : String.length s = List.length (bytes s).
Proof. induction s; simpl; congruence. Qed.

(** ** The scanning loop *)

Lemma scanLoop_app (a b : list ascii) :
  forall s, scanLoop (a ++ b) s = (s' <- scanLoop a s ;; scanLoop b s').
Proof.
  induction a as [|c a IH]; intros s; simpl; [reflexivity|].
  destruct (Ascii.eqb c "."); [apply IH|].
  destruct (uint8 (byte_code c - 48)) as [digit|]; simpl; [|reflexivity].
  destruct (require (digit <=? 9) _); simpl; [|reflexivity].
  destruct (negb (foundDecimal s)).
  - destruct (mulI (scanResult s) 10) as [r10|]; simpl; [|reflexivity].
    destruct (addI r10 digit); simpl; [apply IH|reflexivity].
  - destruct (divI (decimalMultiplier s) 10) as [m|]; simpl; [|reflexivity].
    destruct (mulI digit m) as [t|]; simpl; [|reflexivity].
    destruct (addI (scanResult s) t); simpl; [apply IH|reflexivity].
Qed.

(** Once the loop is in fractional mode a ['.'] changes nothing. *)
Lemma scanLoop_dot_in_fraction (rest : list ascii) (s : Scan) :
  foundDecimal s = true ->
  scanLoop ("."%char :: rest) s = scanLoop rest s.
Proof.
  intros H. simpl. destruct s as [r m f]. simpl in *. now subst f.
Qed.

Lemma scanLoop_filter_dots (bs : list ascii) :
  forall s, foundDecimal s = true ->
            scanLoop bs s = scanLoop (filter notDot bs) s.
Proof.
  induction bs as [|b bs IH]; intros s H; [reflexivity|].
  unfold notDot at 1. simpl filter.
  destruct (Ascii.eqb b ".") eqn:E; simpl negb; cbv iota.
  - apply Ascii.eqb_eq in E. subst b.
    rewrite scanLoop_dot_in_fraction by assumption. now apply IH.
  - simpl. rewrite E.
    destruct (uint8 (byte_code b - 48)) as [digit|]; simpl; [|reflexivity].
    destruct (require (digit <=? 9) _); simpl; [|reflexivity].
    rewrite H. simpl.
    destruct (divI (decimalMultiplier s) 10) as [m|]; simpl; [|reflexivity].
    destruct (mulI digit m) as [t|]; simpl; [|reflexivity].
    destruct (addI (scanResult s) t); simpl; [now apply IH|reflexivity].
Qed.

Lemma parseCoordinateValue_sign (str : string) :
  parseCoordinateValue str
  = match bytes str with
    | b :: rest => if Ascii.eqb b "-" then afterSign true rest
                   else afterSign false (b :: rest)
    | [] => afterSign false []
    end.
Proof.
  unfold parseCoordinateValue, afterSign.
  destruct (bytes str) as [|b rest]; [reflexivity|].
  destruct (Ascii.eqb b "-"); reflexivity.
Qed.

Lemma afterSign_later_dots (neg : bool) (a b : list ascii) :
  afterSign neg (a ++ "."%char :: b) = afterSign neg (a ++ "."%char :: filter notDot b).
Proof.
  unfold afterSign.
  rewrite !scanLoop_app.
  destruct (scanLoop a _) as [s|]; simpl; [|reflexivity].
  rewrite <- scanLoop_filter_dots by reflexivity. reflexivity.
Qed.

(** Dots after the first one of a substring do not change its value. *)
Lemma parseCoordinateValue_later_dots (p q : string) :
  parseCoordinateValue (p ++ "." ++ q)
  = parseCoordinateValue (p ++ "." ++ dropDots q).
Proof.
  rewrite !parseCoordinateValue_sign, !bytes_app. unfold dropDots.
  rewrite bytes_string_of_bytes. change (bytes ".") with ["."%char].
  destruct (bytes p) as [|c r]; simpl app.
  - change (Ascii.eqb "." "-") with false. cbv iota.
    apply (afterSign_later_dots false []).
  - cbv iota. destruct (Ascii.eqb c "-").
    + apply afterSign_later_dots.
    + apply (afterSign_later_dots false (c :: r)).
Qed.

Lemma commaFree_app (a b : string) :
  commaFree (a ++ b) = commaFree a && commaFree b.
Proof. unfold commaFree. now rewrite bytes_app, forallb_app. Qed.

Lemma commaFree_dropDots (s : string) :
  commaFree s = true -> commaFree (dropDots s) = true.
Proof.
  unfold commaFree, dropDots. rewrite bytes_string_of_bytes.
  rewrite !forallb_forall. intros H b Hb. apply filter_In in Hb. now apply H.
Qed.

Lemma length_app_dot (p q : string) :
  (0 <? String.length (p ++ "." ++ q))%nat = true.
Proof.
  rewrite length_bytes, !bytes_app, !length_app. simpl.
  apply Nat.ltb_lt. lia.
Qed.

(** ** Substrings without digits *)

Lemma scanLoop_dots (bs : list ascii) :
  forallb isDot bs = true ->
  forall s, exists f,
    scanLoop bs s = Ok (mkScan (scanResult s) (decimalMultiplier s) f).
Proof.
  induction bs as [|b bs IH]; intros H s; simpl in *.
  - exists (foundDecimal s). now destruct s.
  - apply andb_prop in H as [Hb Hbs]. unfold isDot in Hb. rewrite Hb.
    destruct (IH Hbs (mkScan (scanResult s) (decimalMultiplier s) true)) as [f Hf].
    exists f. exact Hf.
Qed.

Lemma afterSign_dots (isNegative : bool) (bs : list ascii) :
  forallb isDot bs = true -> afterSign isNegative bs = Ok 0.
Proof.
  intros H. unfold afterSign.
  destruct (scanLoop_dots bs H (mkScan 0 1000000 false)) as [f ->]. simpl.
  destruct f, isNegative; reflexivity.
Qed.

Lemma parseCoordinateValue_digitless (s : string) :
  digitless s = true -> parseCoordinateValue s = Ok 0.
Proof.
  unfold digitless. rewrite parseCoordinateValue_sign.
  destruct (bytes s) as [|b rest]; [reflexivity|].
  destruct (Ascii.eqb b "-"); apply afterSign_dots.
Qed.

Lemma digitless_commaFree (s : string) :
  digitless s = true -> commaFree s = true.
Proof.
  unfold digitless, commaFree.
  assert (Hdots : forall l, forallb isDot l = true ->
                            forallb (fun b => negb (Ascii.eqb b ",")) l = true).
  { intros l. rewrite !forallb_forall. intros H b Hb.
    apply H in Hb. unfold isDot in Hb. apply Ascii.eqb_eq in Hb. now subst b. }
  destruct (bytes s) as [|b rest]; [reflexivity|].
  destruct (Ascii.eqb b "-") eqn:E.
  - intros H. simpl. apply Ascii.eqb_eq in E. subst b. simpl. now apply Hdots.
  - apply Hdots.
Qed.

(** ** Claims on the parser *)

(** C10: a latitude or longitude substring made of a leading ['-'] or of
    ['.'] characters, with no digit at all, parses to 0 without error, on
    either side of the separator; so ["-,."] is the coordinate (0, 0). *)
Theorem parseCoordinate_digitless_is_zero (blank other : string) :
  digitless blank = true ->
  (0 < String.length blank)%nat -> (0 < String.length other)%nat ->
  parseCoordinateValue blank = Ok 0
  /\ parseCoordinate (blank ++ "," ++ other)
     = (longitude <- parseCoordinateValue other ;;
        Ok (mkCoordinate 0 longitude))
  /\ (commaFree other = true ->
      parseCoordinate (other ++ "," ++ blank)
      = (latitude <- parseCoordinateValue other ;;
         Ok (mkCoordinate latitude 0))).
Proof.
  intros Hblank Nblank Nother.
  pose proof (parseCoordinateValue_digitless blank Hblank) as Vblank.
  apply Nat.ltb_lt in Nblank, Nother.
  split; [assumption|split].
  - rewrite parseCoordinate_split by now apply digitless_commaFree.
    rewrite Nblank, Nother, Vblank. reflexivity.
  - intros Hfree. rewrite parseCoordinate_split by assumption.
    rewrite Nblank, Nother, Vblank. cbn [andb].
    now destruct (parseCoordinateValue other).
Qed.

(** The example of C10: ["-,."] is the coordinate (0, 0), and so is
    [".,-"]. *)
Lemma parseCoordinate_digitless_example :
  parseCoordinateValue "-" = Ok 0
  /\ parseCoordinate "-,." = Ok (mkCoordinate 0 0)
  /\ (commaFree "." = true -> parseCoordinate ".,-" = Ok (mkCoordinate 0 0)).
Proof.
  apply (parseCoordinate_digitless_is_zero "-" ".");
    first [reflexivity | simpl; lia].
Defined.

(** Against C5 as it is written: the latitude substring of ["1.2.3,4"] has
    two ['.'] characters and the parser returns a coordinate. *)
Lemma parseCoordinate_two_dots_accepted :
  dotCount "1.2.3" = 2%nat
  /\ parseCoordinate "1.2.3,4" = Ok (mkCoordinate 230001 4000000).
Proof. split; reflexivity. Qed.

(** C5, as the code has it: a ['.'] after the first one of a latitude or
    longitude substring is skipped. The parser returns on the string what
    it returns once the later dots of the substring are taken out, and so
    never fails on their account; the separator is the first [','] of the
    whole string, so that a longitude substring may hold further commas. *)
Theorem parseCoordinate_later_dots_skipped (p q lon lat p' q' : string) :
  commaFree (p ++ "." ++ q) = true ->
  commaFree lat = true ->
  parseCoordinate ((p ++ "." ++ q) ++ "," ++ lon)
  = parseCoordinate ((p ++ "." ++ dropDots q) ++ "," ++ lon)
  /\ parseCoordinate (lat ++ "," ++ (p' ++ "." ++ q'))
     = parseCoordinate (lat ++ "," ++ (p' ++ "." ++ dropDots q')).
Proof.
  intros Hpq Hlat. split.
  - assert (Hpq' : commaFree (p ++ "." ++ dropDots q) = true).
    { rewrite !commaFree_app in *.
      apply andb_prop in Hpq as [Hp Hq]. apply andb_prop in Hq as [Hd Hq].
      now rewrite Hp, Hd, commaFree_dropDots. }
    rewrite !parseCoordinate_split by assumption.
    rewrite !length_app_dot, <- parseCoordinateValue_later_dots. reflexivity.
  - rewrite !parseCoordinate_split by assumption.
    rewrite !length_app_dot, <- parseCoordinateValue_later_dots. reflexivity.
Qed.

Lemma parseCoordinate_later_dots_example :
  parseCoordinate "1.2.3,4" = parseCoordinate "1.23,4"
  /\ parseCoordinate "4,1.2.3" = parseCoordinate "4,1.23".
Proof.
  apply (parseCoordinate_later_dots_skipped "1" "2.3" "4" "4" "1" "2.3");
    reflexivity.
Defined.

(** ** Checked arithmetic *)

Lemma int256_ok (z : Z) :
  min_int256 <= z <= max_int256 -> int256 z = Ok z.
Proof.
  intros [H1 H2]. unfold int256.
  apply Z.leb_le in H1, H2. now rewrite H1, H2.
Qed.

Lemma int256_inv (z r : Z) :
  int256 z = Ok r -> r = z /\ min_int256 <= z <= max_int256.
Proof.
  unfold int256.
  destruct (min_int256 <=? z) eqn:H1, (z <=? max_int256) eqn:H2;
    simpl; intros H; inversion H.
  apply Z.leb_le in H1, H2. subst. repeat split; assumption.
Qed.

Lemma int256_err (z : Z) (e : error) :
  int256 z = Err e -> e = Panic ARITHMETIC.
Proof.
  unfold int256. destruct (_ && _); intros H; now inversion H.
Qed.

(** A division by a positive constant never panics. *)
Lemma divI_pos (a b : Z) :
  min_int256 <= a <= max_int256 -> 0 < b -> divI a b = Ok (Z.quot a b).
Proof.
  intros Ha Hb. unfold divI.
  destruct (Z.eqb_spec b 0) as [->|_]; [lia|].
  apply int256_ok. unfold min_int256, max_int256 in *.
  Z.to_euclidean_division_equations. nia.
Qed.

(** ** The east-west factor *)

(** On a latitude between -90 and 90 degrees the factor of the code is
    [1000000] below one degree and [999999] from there on: the latitude is
    cut to whole degrees before it is taken from [90 * precision]. *)
Lemma cosLat1_nominal (coord1 : Coordinate) :
  Z.abs (latitude coord1) <= 90 * precision ->
  cosLat1 coord1
  = Ok (if Z.abs (latitude coord1) <? precision then 1000000 else 999999).
Proof.
  unfold cosLat1, precision. intros H.
  change (mulI 90 1000000) with (Ok 90000000). cbn [bind].
  rewrite divI_pos by (unfold min_int256, max_int256; lia). cbn [bind].
  set (whole := Z.quot (latitude coord1) 1000000).
  assert (Hw : Z.abs whole <= 90 /\
               (Z.abs whole = 0 <-> Z.abs (latitude coord1) < 1000000)).
  { unfold whole. Z.to_euclidean_division_equations. lia. }
  assert (Ha : abs whole = Ok (Z.abs whole)).
  { unfold abs, negI. destruct (Z.leb_spec 0 whole).
    - now rewrite Z.abs_eq.
    - rewrite Z.abs_neq by lia. apply int256_ok.
      unfold min_int256, max_int256. lia. }
  rewrite Ha. cbn [bind]. unfold subI, mulI.
  rewrite int256_ok by (unfold min_int256, max_int256; lia). cbn [bind].
  rewrite int256_ok by (unfold min_int256, max_int256; lia). cbn [bind].
  rewrite divI_pos by (unfold min_int256, max_int256; lia).
  f_equal.
  destruct (Z.ltb_spec (Z.abs (latitude coord1)) 1000000);
    Z.to_euclidean_division_equations; lia.
Qed.

(** C3: at 45 degrees of latitude the documented factor
    [(90 * 10^6 - |lat1|) / (90 * 10^6)] is [500000] in six-decimal fixed
    point and the code computes [999999]; at the pole, where the documented
    factor is [0], the code computes [999999] as well. *)
Theorem cosLat1_differs_from_documented :
  parseCoordinate "45,0" = Ok (mkCoordinate 45000000 0)
  /\ cosLat1 (mkCoordinate 45000000 0) = Ok 999999
  /\ cosLat1_documented 45000000 = 500000
  /\ cosLat1 (mkCoordinate 90000000 0) = Ok 999999
  /\ cosLat1_documented 90000000 = 0.
Proof. repeat split; reflexivity. Qed.

(** ** The distance estimator *)

Lemma toRadians_ok (deg r : Z) :
  toRadians deg = Ok r ->
  r = Z.quot (deg * 3141592) 180000000
  /\ min_int256 <= deg * 3141592 <= max_int256.
Proof.
  unfold toRadians, mulI.
  destruct (int256 (deg * 3141592)) as [n|] eqn:E; cbn [bind]; [|discriminate].
  apply int256_inv in E as [-> Hn].
  change (int256 (180 * precision)) with (Ok 180000000). cbn [bind].
  rewrite divI_pos by (assumption || lia).
  intros H. inversion H. auto.
Qed.

Lemma toRadians_err (deg : Z) (e : error) :
  toRadians deg = Err e -> e = Panic ARITHMETIC.
Proof.
  unfold toRadians, mulI.
  destruct (int256 (deg * 3141592)) as [n|] eqn:E; cbn [bind].
  - apply int256_inv in E as [-> Hn].
    change (int256 (180 * precision)) with (Ok 180000000). cbn [bind].
    rewrite divI_pos by (assumption || lia). discriminate.
  - intros H. inversion H. subst. now apply int256_err in E.
Qed.

(** A radian value is far from the ends of the [int256] range. *)
Lemma toRadians_small (deg r : Z) :
  toRadians deg = Ok r -> Z.abs r <= 2 ^ 228.
Proof.
  intros H. apply toRadians_ok in H as [-> H].
  unfold min_int256, max_int256 in H.
  Z.to_euclidean_division_equations. lia.
Qed.

(** A product with the earth radius is never an end of the range. *)
Lemma earthRadius_multiple (k : Z) :
  6371000 * k <> 2 ^ 255 /\ 6371000 * k <> - 2 ^ 255.
Proof. split; lia. Qed.

Lemma mulI_ok (a b : Z) :
  min_int256 <= a * b <= max_int256 -> mulI a b = Ok (a * b).
Proof. apply int256_ok. Qed.

Lemma mulI_opp_earthRadius (d c : Z) :
  match mulI (d * 6371000) c with
  | Ok p => mulI (- d * 6371000) c = Ok (- p)
            /\ min_int256 <= p <= max_int256
            /\ min_int256 <= - p <= max_int256
  | Err e => mulI (- d * 6371000) c = Err e
  end.
Proof.
  unfold mulI.
  destruct (earthRadius_multiple (d * c)) as [Hmax Hmin].
  replace (- d * 6371000 * c) with (- (d * 6371000 * c)) by ring.
  assert (Hk : d * 6371000 * c = 6371000 * (d * c)) by ring.
  destruct (int256 (d * 6371000 * c)) as [p|e] eqn:E.
  - apply int256_inv in E as [-> E].
    assert (E' : min_int256 <= - (d * 6371000 * c) <= max_int256)
      by (unfold min_int256, max_int256 in *; lia).
    split; [now apply int256_ok | now split].
  - pose proof (int256_err _ _ E) as ->.
    destruct (int256 (- (d * 6371000 * c))) as [q|e'] eqn:E'.
    + apply int256_inv in E' as [_ E'].
      rewrite int256_ok in E; [discriminate|].
      unfold min_int256, max_int256 in *. lia.
    + now rewrite (int256_err _ _ E').
Qed.

(** The estimator gives the same distance in both directions as soon as
    the two first points have the same east-west factor. *)
Lemma distanceBetween_sym (coord1 coord2 : Coordinate) :
  cosLat1 coord1 = cosLat1 coord2 ->
  distanceBetween coord1 coord2 = distanceBetween coord2 coord1.
Proof.
  intros Hcos. unfold distanceBetween. rewrite <- Hcos.
  destruct (toRadians (latitude coord1)) as [a1|e1] eqn:A1,
           (toRadians (longitude coord1)) as [o1|e2] eqn:O1,
           (toRadians (latitude coord2)) as [a2|e3] eqn:A2,
           (toRadians (longitude coord2)) as [o2|e4] eqn:O2;
    cbn [bind];
    repeat match goal with
           | H : toRadians _ = Err _ |- _ => apply toRadians_err in H; subst
           end;
    try reflexivity.
  apply toRadians_small in A1, O1, A2, O2.
  unfold subI.
  rewrite !int256_ok by (unfold min_int256, max_int256; lia). cbn [bind].
  destruct (cosLat1 coord1) as [c|e]; cbn [bind]; [|reflexivity].
  change (toInt256 earthRadius) with 6371000.
  change (mulI precision precision) with (Ok 1000000000000).
  replace (a1 - a2) with (- (a2 - a1)) by ring.
  replace (o1 - o2) with (- (o2 - o1)) by ring.
  set (dLat := a2 - a1) in *. set (dLon := o2 - o1) in *.
  assert (HdLat : Z.abs dLat <= 2 ^ 229) by (unfold dLat; lia).
  assert (HdLon : Z.abs dLon <= 2 ^ 229) by (unfold dLon; lia).
  clearbody dLat dLon.
  rewrite (mulI_ok dLat), (mulI_ok (- dLat)), (mulI_ok dLon), (mulI_ok (- dLon))
    by (unfold min_int256, max_int256; lia).
  cbn [bind]. unfold precision.
  rewrite !divI_pos by (unfold min_int256, max_int256; lia). cbn [bind].
  pose proof (mulI_opp_earthRadius dLon c) as Hy.
  destruct (mulI (dLon * 6371000) c) as [p|e]; cbn [bind].
  - destruct Hy as (-> & Hp & Hp'). cbn [bind].
    rewrite !divI_pos by (assumption || lia). cbn [bind].
    replace (- dLat * 6371000) with (- (dLat * 6371000)) by ring.
    rewrite !Z.quot_opp_l by lia.
    unfold mulI. rewrite !Z.mul_opp_opp. reflexivity.
  - rewrite Hy. reflexivity.
Qed.

(** Against C2 as it is written: between ["0,0"] and ["1,90"] the estimate
    depends on the direction, the east-west factor being taken from the
    first point alone. *)
Lemma calculateDistance_not_symmetric :
  calculateDistance "0,0" "1,90" = Ok 10008158
  /\ calculateDistance "1,90" "0,0" = Ok 10008148
  /\ calculateDistance "0,0" "1,90" <> calculateDistance "1,90" "0,0".
Proof.
  assert (H1 : calculateDistance "0,0" "1,90" = Ok 10008158)
    by (vm_compute; reflexivity).
  assert (H2 : calculateDistance "1,90" "0,0" = Ok 10008148)
    by (vm_compute; reflexivity).
  repeat split; try assumption.
  rewrite H1, H2. discriminate.
Qed.

(** C2, as the code has it: for two coordinate strings the parser accepts
    and whose latitudes give the same east-west factor, the estimate from
    A to B is the estimate from B to A, as a distance or as the same
    failure. *)
Theorem calculateDistance_sym (A B : string) (coordA coordB : Coordinate) :
  parseCoordinate A = Ok coordA ->
  parseCoordinate B = Ok coordB ->
  cosLat1 coordA = cosLat1 coordB ->
  calculateDistance A B = calculateDistance B A.
Proof.
  intros HA HB Hcos. unfold calculateDistance.
  rewrite HA, HB. cbn [bind]. now apply distanceBetween_sym.
Qed.

Lemma calculateDistance_sym_example :
  calculateDistance "1,90" "2,0" = calculateDistance "2,0" "1,90".
Proof.
  apply (calculateDistance_sym "1,90" "2,0"
           (mkCoordinate 1000000 90000000) (mkCoordinate 2000000 0));
    reflexivity.
Defined.

(** Within the nominal range the factor only tells latitudes below one
    degree from the others, so the estimate is symmetric between two
    points on the same side of that line. *)
Corollary calculateDistance_sym_nominal (A B : string) (coordA coordB : Coordinate) :
  parseCoordinate A = Ok coordA ->
  parseCoordinate B = Ok coordB ->
  Z.abs (latitude coordA) <= 90 * precision ->
  Z.abs (latitude coordB) <= 90 * precision ->
  (Z.abs (latitude coordA) <? precision) = (Z.abs (latitude coordB) <? precision) ->
  calculateDistance A B = calculateDistance B A.
Proof.
  intros HA HB RA RB Hside.
  apply (calculateDistance_sym A B coordA coordB HA HB).
  rewrite !cosLat1_nominal by assumption. now rewrite Hside.
Qed.

(** ** Claims on the registry *)

(** Against C6 as it is written: in the scenario the distance returned for
    ["10.000001,20.000001"] is not strictly positive. *)
Lemma checkProximity_scenario_distance_not_positive :
  ~ exists count distance,
      checkProximity firstReported "10.000001,20.000001"
      = Ok (true, "10.000000,20.000000", count, distance)
      /\ 0 < distance < 5000.
Proof.
  intros (count & distance & H & Hd).
  vm_compute in H. inversion H. lia.
Qed.

(** C6, as the code has it: from a state with radius 5000 whose only
    entry is the one of the positive reports at ["10.000000,20.000000"],
    [checkProximity("10.000001,20.000001")] finds that entry, with its
    count, at distance 0, which is below 5000 and not above 0: a millionth
    of a degree is lost when the coordinates are turned into radians. *)
Theorem checkProximity_scenario (st : State) (count time : Z) :
  outbreakRadius st = 5000 ->
  outbreakLocations st = [mkOutbreakLocation "10.000000,20.000000" count time] ->
  checkProximity st "10.000001,20.000001"
  = Ok (true, "10.000000,20.000000", count, 0).
Proof.
  destruct st as [o r ledger entries]. simpl. intros -> ->.
  vm_compute. reflexivity.
Qed.

Lemma checkProximity_scenario_example :
  checkProximity firstReported "10.000001,20.000001"
  = Ok (true, "10.000000,20.000000", 1, 0).
Proof.
  apply (checkProximity_scenario firstReported 1 200); reflexivity.
Defined.

(** *** Reports at a malformed location *)

Lemma calculateDistance_malformed_second (loc1 loc2 : string) (e : error) :
  parseCoordinate loc2 = Err e ->
  exists e', calculateDistance loc1 loc2 = Err e'
             /\ (is_ok (parseCoordinate loc1) = true -> e' = e).
Proof.
  intros H. unfold calculateDistance.
  destruct (parseCoordinate loc1) as [c1|e1]; cbn [bind].
  - rewrite H. cbn [bind]. now exists e.
  - exists e1. split; [reflexivity|discriminate].
Qed.

Lemma calculateDistance_malformed_first (loc1 loc2 : string) (e : error) :
  parseCoordinate loc1 = Err e -> calculateDistance loc1 loc2 = Err e.
Proof. intros H. unfold calculateDistance. now rewrite H. Qed.

Lemma mergeLoop_malformed (now radius : Z) (loc : string) (e : error)
  (locs : list OutbreakLocation) :
  parseCoordinate loc = Err e ->
  existsb (elsewhere loc) locs = true ->
  exists e', mergeLoop now radius loc locs = Err e'
             /\ (forallb (fun o => is_ok (parseCoordinate (location o))
                                   || compareLocations (location o) loc) locs = true
                 -> e' = e).
Proof.
  intros Hloc. induction locs as [|o rest IH]; simpl; [discriminate|].
  unfold elsewhere at 1.
  destruct (compareLocations (location o) loc) eqn:C; simpl.
  - intros H. destruct (IH H) as (e' & He' & Hpre).
    exists e'. split; [assumption|].
    rewrite orb_true_r. exact Hpre.
  - intros _. unfold isWithinRadius.
    destruct (calculateDistance_malformed_second (location o) loc e Hloc)
      as (e' & He' & Hpre).
    rewrite He'. cbn [bind]. exists e'. split; [reflexivity|].
    rewrite orb_false_r. intros H. apply andb_prop in H as [H _]. now apply Hpre.
Qed.

Lemma bumpExisting_locations (now : Z) (loc : string) (locs : list OutbreakLocation) :
  forall locs' locationExists events,
    bumpExisting now loc locs = Ok (locs', locationExists, events) ->
    map location locs' = map location locs.
Proof.
  induction locs as [|o rest IH]; simpl; intros locs' ex evs H.
  - now inversion H.
  - destruct (compareLocations (location o) loc).
    + destruct (addU (infectedCount o) 1); cbn [bind] in H; inversion H.
      reflexivity.
    + destruct (bumpExisting now loc rest) as [[[r x] v]|]; cbn [bind] in H;
        inversion H. simpl. f_equal. now apply (IH r x v).
Qed.

Lemma bumpExisting_roomy (now : Z) (loc : string) (locs : list OutbreakLocation) :
  forallb roomy locs = true -> is_ok (bumpExisting now loc locs) = true.
Proof.
  induction locs as [|o rest IH]; simpl; [reflexivity|].
  intros H. apply andb_prop in H as [Ho Hrest].
  destruct (compareLocations (location o) loc).
  - unfold roomy in Ho. apply andb_prop in Ho as [Hpos Hmax].
    apply Z.ltb_lt in Hmax. apply Z.leb_le in Hpos.
    unfold addU, uint256.
    destruct (Z.leb_spec 0 (infectedCount o + 1)),
             (Z.leb_spec (infectedCount o + 1) max_uint256); try lia.
    reflexivity.
  - specialize (IH Hrest).
    destruct (bumpExisting now loc rest) as [[[r x] v]|]; [reflexivity|discriminate].
Qed.

Lemma bumpExisting_sound (now : Z) (loc : string) (locs : list OutbreakLocation) :
  forallb sound locs = true -> is_ok (bumpExisting now loc locs) = true.
Proof.
  intros H. apply bumpExisting_roomy.
  rewrite forallb_forall in *. intros o Ho. specialize (H o Ho).
  unfold sound in H. now apply andb_prop in H as [_ H].
Qed.

Lemma existsb_map_location (loc : string) (l1 l2 : list OutbreakLocation) :
  map location l1 = map location l2 ->
  existsb (elsewhere loc) l1 = existsb (elsewhere loc) l2.
Proof.
  revert l2. induction l1 as [|a l1 IH]; intros [|b l2] H; simpl in *;
    try discriminate; [reflexivity|].
  inversion H as [[Hab Hrest]]. unfold elsewhere at 1 3. rewrite Hab.
  f_equal. now apply IH.
Qed.

Lemma forallb_map_location (f : string -> bool) (l1 l2 : list OutbreakLocation) :
  map location l1 = map location l2 ->
  forallb (fun o => f (location o)) l1 = forallb (fun o => f (location o)) l2.
Proof.
  revert l2. induction l1 as [|a l1 IH]; intros [|b l2] H; simpl in *;
    try discriminate; [reflexivity|].
  inversion H as [[Hab Hrest]]. rewrite Hab. f_equal. now apply IH.
Qed.

(** Against C1 as it is written: on the registry of a fresh contract a
    positive report at ["bad-input"], which the parser rejects, returns; it
    leaves a ledger record and an entry and emits [NewInfection]. *)
Lemma reportInfection_malformed_accepted :
  parseCoordinate "bad-input" = Err (Revert "Invalid coordinate format")
  /\ transact (mkEnv 8 200) (ReportInfection 9 "bad-input" true)
              (constructor (mkEnv 7 100) 5000)
     = (mkState 7 5000 [mkInfectedIndividual 9 "bad-input" true 200]
                [mkOutbreakLocation "bad-input" 1 200],
        [NewInfection 9 "bad-input" 200]).
Proof. split; reflexivity. Qed.

(** C1, as the code has it: the location of a positive report is parsed
    only to measure its distance to the entries at other locations.  When
    the registry holds at least one entry whose location string differs
    from the reported one, a positive report at a location the parser
    rejects reverts and the transaction leaves the state as it was, with no
    ledger record, no entry created or modified and no event; when the
    entries are sound, the error is the one of the parser. *)
Theorem reportInfection_malformed_reverts (env : Env) (who : address)
  (loc : string) (st : State) (e : error) :
  parseCoordinate loc = Err e ->
  existsb (elsewhere loc) (outbreakLocations st) = true ->
  (exists e', execute env (ReportInfection who loc true) st = Err e'
              /\ (forallb sound (outbreakLocations st) = true -> e' = e))
  /\ transact env (ReportInfection who loc true) st = (st, []).
Proof.
  intros Hloc Hother.
  assert (H : exists e', execute env (ReportInfection who loc true) st = Err e'
              /\ (forallb sound (outbreakLocations st) = true -> e' = e)).
  { simpl. unfold reportInfection.
    pose proof (bumpExisting_locations (block_timestamp env) loc (outbreakLocations st)) as Hmap.
    pose proof (bumpExisting_sound (block_timestamp env) loc (outbreakLocations st)) as Hsound.
    destruct (bumpExisting (block_timestamp env) loc (outbreakLocations st))
      as [[[locs locationExists] grown]|e0]; cbn [bind].
    - specialize (Hmap _ _ _ eq_refl).
      set (locs' := if negb locationExists
                    then locs ++ [mkOutbreakLocation loc 1 (block_timestamp env)]
                    else locs).
      assert (Hother' : existsb (elsewhere loc) locs' = true).
      { assert (existsb (elsewhere loc) locs = true)
          by now rewrite (existsb_map_location loc locs (outbreakLocations st)).
        unfold locs'. destruct (negb locationExists); [|assumption].
        rewrite existsb_app. now apply orb_true_intro; left. }
      destruct (mergeLoop_malformed (block_timestamp env) (outbreakRadius st)
                  loc e locs' Hloc Hother') as (e' & He' & Hpre).
      exists e'. split.
      + unfold checkAndMergeOutbreaks. fold locs'.
        destruct (negb locationExists); simpl; unfold locs' in He';
          rewrite He'; reflexivity.
      + intros Hs. apply Hpre.
        assert (Hl : forallb (fun o => is_ok (parseCoordinate (location o))
                                       || compareLocations (location o) loc) locs = true).
        { rewrite (forallb_map_location
                     (fun l => is_ok (parseCoordinate l) || compareLocations l loc)
                     locs (outbreakLocations st) Hmap).
          rewrite forallb_forall in *. intros o Ho. specialize (Hs o Ho).
          unfold sound in Hs. apply andb_prop in Hs as [Hs _]. now rewrite Hs. }
        unfold locs'. destruct (negb locationExists); [|assumption].
        rewrite forallb_app, Hl. simpl.
        unfold compareLocations. now rewrite String.eqb_refl, orb_true_r.
    - exists e0. split; [reflexivity|].
      intros Hs. specialize (Hsound Hs). discriminate. }
  split; [exact H|].
  destruct H as (e' & He' & _). unfold transact. now rewrite He'.
Qed.

Lemma reportInfection_malformed_reverts_example :
  (exists e', execute (mkEnv 8 300) (ReportInfection 9 "bad-input" true)
                      (afterFirstReport (mkEnv 7 100) (mkEnv 8 200) 9) = Err e'
              /\ (forallb sound (outbreakLocations
                                   (afterFirstReport (mkEnv 7 100) (mkEnv 8 200) 9)) = true
                  -> e' = Revert "Invalid coordinate format"))
  /\ transact (mkEnv 8 300) (ReportInfection 9 "bad-input" true)
              (afterFirstReport (mkEnv 7 100) (mkEnv 8 200) 9)
     = (afterFirstReport (mkEnv 7 100) (mkEnv 8 200) 9, []).
Proof.
  apply (reportInfection_malformed_reverts (mkEnv 8 300) 9 "bad-input"
           (afterFirstReport (mkEnv 7 100) (mkEnv 8 200) 9)
           (Revert "Invalid coordinate format"));
    reflexivity.
Defined.

Lemma mergeLoop_alone (now radius : Z) (loc : string) (locs : list OutbreakLocation) :
  existsb (elsewhere loc) locs = false ->
  mergeLoop now radius loc locs = Ok [].
Proof.
  induction locs as [|o rest IH]; simpl; [reflexivity|].
  unfold elsewhere at 1.
  destruct (compareLocations (location o) loc); simpl; [exact IH|discriminate].
Qed.

(** The other side of C1: when no entry is at another location string the
    reported location is never parsed, and a positive report returns and
    appends its record to the ledger, whatever its location text. *)
Lemma reportInfection_alone_accepted (env : Env) (who : address) (loc : string)
  (st : State) :
  existsb (elsewhere loc) (outbreakLocations st) = false ->
  forallb roomy (outbreakLocations st) = true ->
  exists st' events,
    execute env (ReportInfection who loc true) st = Ok (st', events)
    /\ infectedIndividuals st'
       = infectedIndividuals st
         ++ [mkInfectedIndividual who loc true (block_timestamp env)].
Proof.
  intros Halone Hroomy. simpl. unfold reportInfection.
  pose proof (bumpExisting_locations (block_timestamp env) loc (outbreakLocations st)) as Hmap.
  pose proof (bumpExisting_roomy (block_timestamp env) loc (outbreakLocations st) Hroomy)
    as Hok.
  destruct (bumpExisting _ loc (outbreakLocations st))
    as [[[locs locationExists] grown]|]; [|discriminate].
  cbn [bind]. specialize (Hmap _ _ _ eq_refl).
  assert (Hlocs : existsb (elsewhere loc) locs = false)
    by now rewrite (existsb_map_location loc locs (outbreakLocations st)).
  unfold checkAndMergeOutbreaks.
  destruct (negb locationExists); simpl outbreakLocations.
  - rewrite mergeLoop_alone.
    + cbn [bind]. eexists; eexists; split; reflexivity.
    + rewrite existsb_app, Hlocs. simpl. unfold elsewhere, compareLocations.
      simpl. now rewrite String.eqb_refl.
  - rewrite mergeLoop_alone by assumption.
    cbn [bind]. eexists; eexists; split; reflexivity.
Qed.

(** *** Exposure queries at a malformed location *)

Lemma exposureLoop_malformed (currentTime threshold radius : Z) (loc : string)
  (e : error) (individuals : list InfectedIndividual) :
  parseCoordinate loc = Err e ->
  currentTime <= max_uint256 ->
  forallb (recordedBy currentTime) individuals = true ->
  forall acc,
    exposureLoop currentTime loc threshold radius individuals acc
    = if existsb (inWindow currentTime threshold) individuals
      then Err e else Ok acc.
Proof.
  intros Hloc Hnow. induction individuals as [|p rest IH]; simpl; intros H acc;
    [reflexivity|].
  apply andb_prop in H as [Hp Hrest]. unfold recordedBy in Hp.
  apply andb_prop in Hp as [Hp0 Hp1]. apply Z.leb_le in Hp0, Hp1.
  unfold subU, uint256.
  destruct (Z.leb_spec 0 (currentTime - individualTimestamp p)); [|lia].
  destruct (Z.leb_spec (currentTime - individualTimestamp p) max_uint256); [|lia].
  cbn [andb bind]. unfold inWindow at 1.
  rewrite Z.gtb_ltb, Z.ltb_antisym.
  destruct (currentTime - individualTimestamp p <=? threshold); simpl.
  - unfold isWithinRadius.
    now rewrite (calculateDistance_malformed_first loc _ e Hloc).
  - now apply IH.
Qed.

(** Against C4 as it is written: on the empty ledger of a fresh contract
    the exposure query at ["bad-input"], which the parser rejects, returns
    [(false, 0)]. *)
Lemma checkExposureRisk_malformed_accepted :
  parseCoordinate "bad-input" = Err (Revert "Invalid coordinate format")
  /\ checkExposureRisk (mkEnv 8 200) (constructor (mkEnv 7 100) 5000)
                       "bad-input" 10
     = Ok (false, 0).
Proof. split; reflexivity. Qed.

(** C4, as the code has it: the query location is parsed only against a
    ledger record inside the time window.  On a ledger whose records are
    not dated after the current time, an exposure query at a location the
    parser rejects fails with the error of the parser when some record is
    inside the window, and returns [(false, 0)] when none is, as on the
    empty ledger. *)
Theorem checkExposureRisk_malformed (env : Env) (st : State) (loc : string)
  (_timeThreshold : Z) (e : error) :
  parseCoordinate loc = Err e ->
  block_timestamp env <= max_uint256 ->
  forallb (recordedBy (block_timestamp env)) (infectedIndividuals st) = true ->
  checkExposureRisk env st loc _timeThreshold
  = if existsb (inWindow (block_timestamp env) _timeThreshold)
               (infectedIndividuals st)
    then Err e else Ok (false, 0).
Proof.
  intros Hloc Hnow Hpast. unfold checkExposureRisk.
  now apply exposureLoop_malformed.
Qed.

Lemma checkExposureRisk_malformed_example :
  checkExposureRisk (mkEnv 8 300)
                    (afterFirstReport (mkEnv 7 100) (mkEnv 8 200) 9)
                    "bad-input" 100
  = Err (Revert "Invalid coordinate format").
Proof.
  apply (checkExposureRisk_malformed (mkEnv 8 300)
           (afterFirstReport (mkEnv 7 100) (mkEnv 8 200) 9) "bad-input" 100
           (Revert "Invalid coordinate format"));
    [reflexivity | vm_compute; discriminate | reflexivity].
Defined.

(** *** The nearest entry *)

(** The square root loop never goes above the value it starts from. *)
Lemma sqrtLoop_le (z y w r : N) :
  sqrtLoop z y w = Ok r -> (r <= w)%N.
Proof.
  funelim (sqrtLoop z y w); intros Hr.
  - pose proof (proj1 (N.ltb_lt _ _) Hlt) as Hyw.
    destruct (N.eqb y 0); [discriminate|].
    destruct (Z.of_N (z / y + y) <=? max_uint256); [|discriminate].
    match goal with IH : forall r, _ -> (r <= _)%N |- _ => specialize (IH r Hr) end.
    lia.
  - inversion Hr. lia.
Qed.

Lemma sqrt_range (x r : Z) :
  0 <= x <= max_int256 -> sqrt x = Ok r -> 0 <= r <= max_int256.
Proof.
  intros Hx. unfold sqrt.
  destruct (Z.leb_spec x 0) as [Hle|Hgt].
  - intros Hs. inversion Hs. unfold max_int256. lia.
  - assert (Hz : toUint256 x = x).
    { unfold toUint256. apply Z.mod_small. unfold max_int256 in Hx. lia. }
    rewrite Hz. unfold addU, uint256.
    destruct ((0 <=? x + 1) && (x + 1 <=? max_uint256)); cbn [bind]; [|discriminate].
    destruct (sqrtLoop _ _ _) as [w|] eqn:E; cbn [bind]; [|discriminate].
    apply sqrtLoop_le in E. intros Hs. inversion Hs.
    unfold toInt256.
    destruct (Z.leb_spec (Z.of_N w) max_int256); lia.
Qed.

(** A distance is an unsigned word below [2^255]. *)
Lemma calculateDistance_range (loc1 loc2 : string) (d : Z) :
  calculateDistance loc1 loc2 = Ok d -> 0 <= d <= max_int256.
Proof.
  unfold calculateDistance, distanceBetween.
  repeat match goal with
         | |- bind ?m _ = Ok _ -> _ =>
             let E := fresh "E" in
             destruct m eqn:E; cbn [bind]; [|discriminate]
         end.
  intros H. inversion H. clear H.
  repeat match goal with
         | Hm : mulI ?x ?x = Ok _ |- _ => apply int256_inv in Hm as [-> _]
         end.
  match goal with
  | Ha : addI _ _ = Ok _ |- _ => apply int256_inv in Ha as [-> Ha]
  end.
  match goal with
  | Hs : sqrt (?a * ?a + ?b * ?b) = Ok ?r,
    Hsum : _ <= ?a * ?a + ?b * ?b <= _ |- _ =>
      assert (Hr : 0 <= r <= max_int256)
        by (apply (sqrt_range (a * a + b * b) r);
            [split; [nia|apply Hsum]|exact Hs])
  end.
  unfold toUint256. rewrite Z.mod_small; [assumption|].
  unfold max_int256 in Hr. lia.
Qed.

Lemma proximityLoop_closestOf (q : string) (radius : Z)
  (locs : list OutbreakLocation) (ds : list Z) :
  Forall2 (fun o d => calculateDistance q (location o) = Ok d) locs ds ->
  forall i c, proximityLoop q radius locs i c = Ok (closestOf radius ds i c).
Proof.
  induction 1 as [|o d locs ds Hd _ IH]; intros i c; simpl; [reflexivity|].
  unfold isWithinRadius. rewrite Hd. cbn [bind].
  destruct ((d <=? radius) && (d <? closestDistance c)); apply IH.
Qed.

Lemma nth_error_snoc {A} (l : list A) (x : A) (j : nat) (y : A) :
  nth_error (l ++ [x]) j = Some y ->
  ((j < List.length l)%nat /\ nth_error l j = Some y)
  \/ (j = List.length l /\ y = x).
Proof.
  intros H. destruct (Nat.lt_ge_cases j (List.length l)) as [Hlt|Hge].
  - left. split; [assumption|]. now rewrite nth_error_app1 in H.
  - right. rewrite nth_error_app2 in H by assumption.
    destruct (j - List.length l)%nat as [|k] eqn:E; simpl in H.
    + inversion H. split; [lia|reflexivity].
    + destruct k; discriminate.
Qed.

Lemma nth_error_app_keep {A} (l l' : list A) (j : nat) (y : A) :
  nth_error l j = Some y -> nth_error (l ++ l') j = Some y.
Proof.
  intros H. rewrite nth_error_app1; [assumption|].
  apply nth_error_Some. now rewrite H.
Qed.

Lemma bestSoFar_step (radius d : Z) (seen : list Z) (c : Closest) :
  d < max_uint256 ->
  bestSoFar radius seen c ->
  bestSoFar radius (seen ++ [d])
            (if (d <=? radius) && (d <? closestDistance c)
             then mkClosest d (List.length seen) true else c).
Proof.
  intros Hd. unfold bestSoFar.
  destruct (Z.leb_spec d radius) as [Hin|Hout],
           (Z.ltb_spec d (closestDistance c)) as [Hless|Hmore]; cbn [andb];
    destruct (foundInRadius c) eqn:F; cbn [foundInRadius closestDistance closestIndex];
    try rewrite F.
  - intros (Hnth & Hrad & Hmin). split; [|split; [assumption|]].
    + now rewrite nth_error_app2, Nat.sub_diag by lia.
    + intros j d' Hj Hd'. apply nth_error_snoc in Hj as [[Hlt Hj]|[-> ->]].
      * destruct (Hmin j d' Hj Hd'). lia.
      * split; [lia|intros _; lia].
  - intros (Hmax & Hnone). split; [|split; [assumption|]].
    + now rewrite nth_error_app2, Nat.sub_diag by lia.
    + intros j d' Hj Hd'. apply nth_error_snoc in Hj as [[Hlt Hj]|[-> ->]].
      * specialize (Hnone j d' Hj). lia.
      * split; [lia|intros _; lia].
  - intros (Hnth & Hrad & Hmin).
    assert (Hci : (closestIndex c < List.length seen)%nat)
      by (apply nth_error_Some; now rewrite Hnth).
    split; [|split; [assumption|]].
    + now rewrite nth_error_app1.
    + intros j d' Hj Hd'. apply nth_error_snoc in Hj as [[Hlt Hj]|[-> ->]].
      * now apply Hmin.
      * split; [lia|intros _; lia].
  - intros (Hmax & Hnone). lia.
  - intros (Hnth & Hrad & Hmin). split; [|split; [assumption|]].
    + apply nth_error_app_keep. exact Hnth.
    + intros j d' Hj Hd'. apply nth_error_snoc in Hj as [[Hlt Hj]|[-> ->]].
      * now apply Hmin.
      * lia.
  - intros (Hmax & Hnone). split; [assumption|].
    intros j d' Hj. apply nth_error_snoc in Hj as [[Hlt Hj]|[-> ->]].
    + now apply (Hnone j).
    + assumption.
  - intros (Hnth & Hrad & Hmin). split; [|split; [assumption|]].
    + apply nth_error_app_keep. exact Hnth.
    + intros j d' Hj Hd'. apply nth_error_snoc in Hj as [[Hlt Hj]|[-> ->]].
      * now apply Hmin.
      * lia.
  - intros (Hmax & Hnone). split; [assumption|].
    intros j d' Hj. apply nth_error_snoc in Hj as [[Hlt Hj]|[-> ->]].
    + now apply (Hnone j).
    + assumption.
Qed.

Lemma closestOf_best (radius : Z) (ds : list Z) :
  (forall d, In d ds -> d < max_uint256) ->
  forall seen c,
    bestSoFar radius seen c ->
    bestSoFar radius (seen ++ ds) (closestOf radius ds (List.length seen) c).
Proof.
  induction ds as [|d rest IH]; intros Hds seen c Hc; simpl.
  - now rewrite app_nil_r.
  - pose proof (bestSoFar_step radius d seen c (Hds d (or_introl eq_refl)) Hc) as Hstep.
    assert (Hrest : forall d', In d' rest -> d' < max_uint256)
      by (intros d' Hd'; apply Hds; now right).
    replace (seen ++ d :: rest) with ((seen ++ [d]) ++ rest)
      by (now rewrite <- app_assoc).
    replace (S (List.length seen)) with (List.length (seen ++ [d]))
      by (rewrite length_app; simpl; lia).
    destruct ((d <=? radius) && (d <? closestDistance c)); now apply IH.
Qed.

Lemma Forall2_nth_error_right {A B} (R : A -> B -> Prop) (l1 : list A) (l2 : list B) :
  Forall2 R l1 l2 ->
  forall j b, nth_error l2 j = Some b ->
              exists a, nth_error l1 j = Some a /\ R a b.
Proof.
  induction 1 as [|a b' l1 l2 Hab _ IH]; intros [|j] b Hj; simpl in *;
    try discriminate.
  - inversion Hj. subst. now exists a.
  - now apply IH.
Qed.

(** Against C7 as it is written: the registry that a positive report at
    ["bad-input"] leaves on a fresh contract is a state of the contract,
    ["1,1"] is a valid query location, and [checkProximity] reverts. *)
Lemma checkProximity_reverts_on_malformed_entry :
  reachable malformedRegistry
  /\ parseCoordinate "1,1" = Ok (mkCoordinate 1000000 1000000)
  /\ checkProximity malformedRegistry "1,1"
     = Err (Revert "Invalid coordinate format").
Proof.
  split; [|split; reflexivity].
  apply reachable_transact, reachable_constructor.
Qed.

(** C7, as the code has it: in a state where the distance from the query
    to every entry is computed, [checkProximity] returns the entry whose
    distance is the least among those within [outbreakRadius], the one of
    lowest index among equals, with its count and that distance; and it
    returns [(false, "", 0, 0)] when no entry is within the radius. *)
Theorem checkProximity_nearest (st : State) (q : string) (ds : list Z) :
  Forall2 (fun o d => calculateDistance q (location o) = Ok d)
          (outbreakLocations st) ds ->
  (exists i o d,
      checkProximity st q = Ok (true, location o, infectedCount o, d)
      /\ nth_error (outbreakLocations st) i = Some o
      /\ nth_error ds i = Some d
      /\ d <= outbreakRadius st
      /\ forall j d', nth_error ds j = Some d' -> d' <= outbreakRadius st ->
                      d <= d' /\ (d' = d -> (i <= j)%nat))
  \/ (checkProximity st q = Ok (false, "", 0, 0)
      /\ forall j d', nth_error ds j = Some d' -> outbreakRadius st < d').
Proof.
  intros Hds. unfold checkProximity.
  rewrite (proximityLoop_closestOf q _ _ ds Hds). cbn [bind].
  assert (Hsmall : forall d, In d ds -> d < max_uint256).
  { intros d Hd. apply In_nth_error in Hd as [j Hj].
    destruct (Forall2_nth_error_right _ _ _ Hds j d Hj) as (o & _ & Ho).
    apply calculateDistance_range in Ho.
    unfold max_int256, max_uint256 in *. lia. }
  assert (Hinit : bestSoFar (outbreakRadius st) [] (mkClosest max_uint256 0 false)).
  { split; [reflexivity|]. intros [|j] d Hj; discriminate. }
  pose proof (closestOf_best (outbreakRadius st) ds Hsmall [] _ Hinit) as Hbest.
  simpl in Hbest. unfold bestSoFar in Hbest.
  destruct (foundInRadius (closestOf _ ds 0 _)).
  - destruct Hbest as (Hnth & Hrad & Hmin).
    destruct (Forall2_nth_error_right _ _ _ Hds _ _ Hnth) as (o & Ho & _).
    rewrite Ho. left. exists (closestIndex (closestOf (outbreakRadius st) ds 0
                                             (mkClosest max_uint256 0 false))), o,
      (closestDistance (closestOf (outbreakRadius st) ds 0
                          (mkClosest max_uint256 0 false))).
    repeat split; try assumption; now apply (Hmin j d').
  - right. split; [reflexivity|]. exact (proj2 Hbest).
Qed.

Lemma checkProximity_nearest_example :
  (exists i o d,
      checkProximity tiedRegistry "2,0" = Ok (true, location o, infectedCount o, d)
      /\ nth_error (outbreakLocations tiedRegistry) i = Some o
      /\ nth_error [555971; 111193; 111193] i = Some d
      /\ d <= outbreakRadius tiedRegistry
      /\ forall j d', nth_error [555971; 111193; 111193] j = Some d' ->
                      d' <= outbreakRadius tiedRegistry ->
                      d <= d' /\ (d' = d -> (i <= j)%nat))
  \/ (checkProximity tiedRegistry "2,0" = Ok (false, "", 0, 0)
      /\ forall j d', nth_error [555971; 111193; 111193] j = Some d' ->
                      outbreakRadius tiedRegistry < d').
Proof.
  apply (checkProximity_nearest tiedRegistry "2,0" [555971; 111193; 111193]).
  repeat (constructor; [vm_compute; reflexivity|]). constructor.
Defined.

Example checkProximity_first_among_equals :
  checkProximity tiedRegistry "2,0" = Ok (true, "1,0", 4, 111193).
Proof. vm_compute. reflexivity. Qed.

(** *** Invariants of the state *)

Lemma grows_refl (st : State) : grows st st.
Proof.
  split; [lia|]. intros i o H. exists o. repeat split; [assumption|lia].
Qed.

Lemma bumpExisting_counts (now : Z) (loc : string) (locs : list OutbreakLocation) :
  forall locs' locationExists events,
    bumpExisting now loc locs = Ok (locs', locationExists, events) ->
    (forall i o, nth_error locs i = Some o ->
                 exists o', nth_error locs' i = Some o'
                            /\ location o' = location o
                            /\ infectedCount o <= infectedCount o')
    /\ (locationExists = false -> ~ In loc (map location locs)).
Proof.
  induction locs as [|o rest IH]; simpl; intros locs' ex evs H.
  - inversion H. split; [intros [|i] o' Hi; discriminate|]. intros _ [].
  - destruct (compareLocations (location o) loc) eqn:C.
    + destruct (addU (infectedCount o) 1) as [count|] eqn:A; cbn [bind] in H;
        inversion H. subst. clear H.
      unfold addU, uint256 in A.
      destruct ((0 <=? infectedCount o + 1) && (infectedCount o + 1 <=? max_uint256));
        inversion A. subst.
      split; [|discriminate].
      intros [|i] o' Hi; simpl in *.
      * inversion Hi. subst. eexists. repeat split. simpl. lia.
      * exists o'. repeat split; [assumption|lia].
    + destruct (bumpExisting now loc rest) as [[[r x] v]|] eqn:B; cbn [bind] in H;
        inversion H. subst. clear H.
      destruct (IH r ex evs eq_refl) as [Hcount Hnew].
      split.
      * intros [|i] o' Hi; simpl in *.
        -- inversion Hi. subst. exists o'. repeat split. lia.
        -- now apply Hcount.
      * intros Hex [Hhere|Hthere].
        -- unfold compareLocations in C. apply String.eqb_neq in C. contradiction.
        -- now apply Hnew.
Qed.

Lemma reportInfection_grows (env : Env) (who : address) (loc : string)
  (positive : bool) (st st' : State) (events : list Event) :
  distinctLocations st ->
  reportInfection env who loc positive st = Ok (st', events) ->
  distinctLocations st' /\ grows st st'.
Proof.
  intros Hdistinct. unfold reportInfection.
  destruct positive.
  2:{ intros H. inversion H. subst. split; [assumption|apply grows_refl]. }
  pose proof (bumpExisting_locations (block_timestamp env) loc (outbreakLocations st)) as Hmap.
  pose proof (bumpExisting_counts (block_timestamp env) loc (outbreakLocations st)) as Hcounts.
  destruct (bumpExisting _ loc (outbreakLocations st))
    as [[[locs locationExists] grown]|]; cbn [bind]; [|discriminate].
  specialize (Hmap _ _ _ eq_refl). destruct (Hcounts _ _ _ eq_refl) as [Hcount Hnew].
  destruct (negb locationExists) eqn:N;
    (destruct (checkAndMergeOutbreaks _ _ _); cbn [bind]; [|discriminate]);
    intros H; inversion H; subst; clear H;
    unfold distinctLocations, grows; simpl.
  - split; [|split].
    + rewrite map_app, Hmap. simpl.
      apply NoDup_app; [assumption|repeat constructor; intros []|].
      intros l Hin [<-|[]]. apply Hnew; [|assumption].
      now destruct locationExists.
    + rewrite length_app. simpl. lia.
    + intros i o Hi. destruct (Hcount i o Hi) as (o' & Ho' & Hrest).
      exists o'. split; [now apply nth_error_app_keep|assumption].
  - split; [|split].
    + now rewrite Hmap.
    + rewrite length_app. simpl. lia.
    + assumption.
Qed.

Lemma execute_grows (env : Env) (call : Call) (st st' : State) (events : list Event) :
  distinctLocations st ->
  execute env call st = Ok (st', events) ->
  distinctLocations st' /\ grows st st'.
Proof.
  intros Hdistinct. destruct call; simpl.
  - now apply reportInfection_grows.
  - destruct (checkProximity st _newLocation); cbn [bind]; intros H; inversion H.
    subst. split; [assumption|apply grows_refl].
  - unfold reportNewLocation.
    destruct (checkProximity st _location) as [[[[found l] c] d]|]; cbn [bind];
      [|discriminate].
    destruct found; intros H; inversion H; subst;
      (split; [assumption|apply grows_refl]).
  - unfold setOutbreakRadius.
    destruct (require _ _); cbn [bind]; intros H; inversion H. subst.
    split; [assumption|]. split; simpl; [lia|].
    intros i o Hi. exists o. repeat split; [assumption|lia].
  - intros H. inversion H. subst. split; [assumption|apply grows_refl].
  - intros H. inversion H. subst. split; [assumption|apply grows_refl].
  - intros H. inversion H. subst. split; [assumption|apply grows_refl].
  - destruct (checkExposureRisk env st _userLocation _timeThreshold); cbn [bind];
      intros H; inversion H.
    subst. split; [assumption|apply grows_refl].
Qed.

Lemma transact_grows (env : Env) (call : Call) (st : State) :
  distinctLocations st ->
  distinctLocations (fst (transact env call st))
  /\ grows st (fst (transact env call st)).
Proof.
  intros Hdistinct. unfold transact.
  pose proof (execute_grows env call st) as Hexec.
  destruct (execute env call st) as [[st' events]|e]; simpl.
  - now apply (Hexec st' events).
  - split; [assumption|apply grows_refl].
Qed.

(** C8: every call, whether it returns or reverts, keeps the location
    strings of the entries pairwise distinct, does not shorten the ledger
    and does not lower the count of any entry. *)
Theorem transact_preserves_invariants (env : Env) (call : Call) (st : State) :
  distinctLocations st ->
  distinctLocations (fst (transact env call st))
  /\ (List.length (infectedIndividuals st)
      <= List.length (infectedIndividuals (fst (transact env call st))))%nat
  /\ forall i o,
      nth_error (outbreakLocations st) i = Some o ->
      exists o',
        nth_error (outbreakLocations (fst (transact env call st))) i = Some o'
        /\ location o' = location o
        /\ infectedCount o <= infectedCount o'.
Proof.
  intros Hdistinct.
  destruct (transact_grows env call st Hdistinct) as [Hd [Hl Hc]]. auto.
Qed.

Lemma transact_preserves_invariants_example :
  distinctLocations afterSecondReport
  /\ (List.length (infectedIndividuals firstReported)
      <= List.length (infectedIndividuals afterSecondReport))%nat
  /\ forall i o,
      nth_error (outbreakLocations firstReported) i
      = Some o ->
      exists o',
        nth_error (outbreakLocations afterSecondReport) i = Some o'
        /\ location o' = location o
        /\ infectedCount o <= infectedCount o'.
Proof.
  apply (transact_preserves_invariants (mkEnv 8 300)
           (ReportInfection 9 "10.000000,20.000000" true) firstReported).
  unfold distinctLocations. vm_compute. repeat constructor. intros [].
Defined.

Example afterSecondReport_counts :
  outbreakLocations afterSecondReport
  = [mkOutbreakLocation "10.000000,20.000000" 2 300]
  /\ getInfectedCount afterSecondReport = 2.
Proof. split; reflexivity. Qed.

Lemma reachable_distinctLocations (st : State) :
  reachable st -> distinctLocations st.
Proof.
  induction 1 as [env r|env call st _ IH].
  - constructor.
  - now apply transact_grows.
Qed.

(** ** Fractions of more than six digits *)

(** One turn of the scanning loop on a digit. *)
Lemma scanLoop_digit (b : ascii) (rest : list ascii) (s : Scan) :
  isDigit b = true ->
  scanLoop (b :: rest) s
  = if negb (foundDecimal s) then
      r10 <- mulI (scanResult s) 10 ;;
      r <- addI r10 (byte_code b - 48) ;;
      scanLoop rest (mkScan r (decimalMultiplier s) false)
    else
      m <- divI (decimalMultiplier s) 10 ;;
      t <- mulI (byte_code b - 48) m ;;
      r <- addI (scanResult s) t ;;
      scanLoop rest (mkScan r m true).
Proof.
  intros Hb. unfold isDigit in Hb. apply andb_prop in Hb as [H1 H2].
  apply Z.leb_le in H1, H2. simpl.
  destruct (Ascii.eqb_spec b ".") as [->|_];
    [change (byte_code ".") with 46 in H1; lia|].
  unfold uint8.
  destruct (Z.leb_spec 0 (byte_code b - 48)); [|lia].
  destruct (Z.leb_spec (byte_code b - 48) 255); [|lia].
  cbn [andb bind]. unfold require.
  destruct (Z.leb_spec (byte_code b - 48) 9); [|lia].
  reflexivity.
Qed.

(** The result of the loop stays a signed word. *)
Lemma scanLoop_inInt256 (bs : list ascii) :
  forall s s', scanLoop bs s = Ok s' ->
               inInt256 (scanResult s) -> inInt256 (scanResult s').
Proof.
  induction bs as [|b bs IH]; intros s s' H Hs.
  - simpl in H. inversion H. now subst.
  - simpl in H. destruct (Ascii.eqb b ".").
    + apply (IH _ _ H). exact Hs.
    + destruct (uint8 _) as [digit|]; cbn [bind] in H; [|discriminate].
      destruct (require _ _); cbn [bind] in H; [|discriminate].
      destruct (negb (foundDecimal s)).
      * destruct (mulI _ _) as [r10|]; cbn [bind] in H; [|discriminate].
        destruct (addI r10 digit) as [r|] eqn:A; cbn [bind] in H; [|discriminate].
        apply (IH _ _ H). simpl. apply int256_inv in A as [-> A]. exact A.
      * destruct (divI _ _) as [m|]; cbn [bind] in H; [|discriminate].
        destruct (mulI _ _) as [t|]; cbn [bind] in H; [|discriminate].
        destruct (addI (scanResult s) t) as [r|] eqn:A; cbn [bind] in H; [|discriminate].
        apply (IH _ _ H). simpl. apply int256_inv in A as [-> A]. exact A.
Qed.

(** Digits before the ['.'] leave the multiplier and the mode alone. *)
Lemma scanLoop_whole_digits (ds : list ascii) :
  forallb isDigit ds = true ->
  forall s s', foundDecimal s = false -> scanLoop ds s = Ok s' ->
               foundDecimal s' = false
               /\ decimalMultiplier s' = decimalMultiplier s.
Proof.
  induction ds as [|b ds IH]; intros Hds s s' Hf H.
  - simpl in H. inversion H. subst. auto.
  - simpl in Hds. apply andb_prop in Hds as [Hb Hds].
    rewrite (scanLoop_digit b ds s Hb), Hf in H. simpl negb in H. cbv iota in H.
    destruct (mulI _ _) as [r10|]; cbn [bind] in H; [|discriminate].
    destruct (addI _ _) as [r|]; cbn [bind] in H; [|discriminate].
    exact (IH Hds (mkScan r (decimalMultiplier s) false) s' eq_refl H).
Qed.

(** Every digit after the ['.'] divides the multiplier by ten. *)
Lemma scanLoop_fraction_digits (ds : list ascii) :
  forallb isDigit ds = true ->
  forall s s', foundDecimal s = true -> scanLoop ds s = Ok s' ->
               foundDecimal s' = true
               /\ decimalMultiplier s'
                  = Z.quot (decimalMultiplier s) (10 ^ Z.of_nat (List.length ds)).
Proof.
  induction ds as [|b ds IH]; intros Hds s s' Hf H.
  - simpl in H. inversion H. subst. split; [assumption|].
    simpl. now rewrite Z.quot_1_r.
  - simpl in Hds. apply andb_prop in Hds as [Hb Hds].
    rewrite (scanLoop_digit b ds s Hb), Hf in H. simpl negb in H. cbv iota in H.
    unfold divI in H. change (10 =? 0) with false in H. cbv iota in H.
    destruct (int256 (Z.quot (decimalMultiplier s) 10)) as [m|] eqn:M;
      cbn [bind] in H; [|discriminate].
    apply int256_inv in M as [-> _].
    destruct (mulI _ _) as [t|]; cbn [bind] in H; [|discriminate].
    destruct (addI _ _) as [r|]; cbn [bind] in H; [|discriminate].
    destruct (IH Hds (mkScan r (Z.quot (decimalMultiplier s) 10) true) s' eq_refl H)
      as [Hf' Hm].
    split; [assumption|].
    rewrite Hm. simpl decimalMultiplier.
    replace (Z.of_nat (List.length (b :: ds))) with (1 + Z.of_nat (List.length ds))
      by (simpl List.length; lia).
    rewrite Z.pow_add_r by lia. rewrite Z.quot_quot by lia. reflexivity.
Qed.

(** Once the multiplier is down to one, further digits add nothing. *)
Lemma scanLoop_extra_digits (ds : list ascii) :
  forallb isDigit ds = true ->
  forall s, foundDecimal s = true -> 0 <= decimalMultiplier s <= 1 ->
            inInt256 (scanResult s) ->
            exists m, scanLoop ds s = Ok (mkScan (scanResult s) m true).
Proof.
  induction ds as [|b ds IH]; intros Hds s Hf Hm Hr.
  - exists (decimalMultiplier s). simpl. destruct s. simpl in *. now subst.
  - simpl in Hds. apply andb_prop in Hds as [Hb Hds].
    rewrite (scanLoop_digit b ds s Hb), Hf. simpl negb. cbv iota.
    rewrite divI_pos by (unfold min_int256, max_int256; lia). cbn [bind].
    assert (Hq : Z.quot (decimalMultiplier s) 10 = 0)
      by (apply Z.quot_small; lia).
    rewrite Hq. unfold mulI, addI. rewrite Z.mul_0_r.
    change (int256 0) with (Ok 0). cbn [bind].
    rewrite Z.add_0_r, (int256_ok _ Hr). cbn [bind].
    destruct (IH Hds (mkScan (scanResult s) 0 true) eq_refl
                ltac:(simpl; lia) Hr) as [m Hm'].
    exists m. exact Hm'.
Qed.

Lemma afterSign_extra_digits (isNegative : bool) (whole f6 extra : list ascii) :
  forallb isDigit whole = true ->
  forallb isDigit f6 = true ->
  List.length f6 = 6%nat ->
  forallb isDigit extra = true ->
  afterSign isNegative (whole ++ "."%char :: f6 ++ extra)
  = afterSign isNegative (whole ++ "."%char :: f6).
Proof.
  intros Hw Hf Hlen He. unfold afterSign.
  rewrite !scanLoop_app.
  destruct (scanLoop whole _) as [s1|] eqn:S1; cbn [bind]; [|reflexivity].
  destruct (scanLoop_whole_digits whole Hw (mkScan 0 1000000 false) s1 eq_refl S1)
    as [_ Hm1].
  simpl in Hm1.
  pose proof (scanLoop_inInt256 whole _ _ S1) as Hr1.
  change (scanLoop ("."%char :: f6 ++ extra) s1)
    with (scanLoop (f6 ++ extra) (mkScan (scanResult s1) (decimalMultiplier s1) true)).
  change (scanLoop ("."%char :: f6) s1)
    with (scanLoop f6 (mkScan (scanResult s1) (decimalMultiplier s1) true)).
  rewrite scanLoop_app.
  destruct (scanLoop f6 _) as [s2|] eqn:S2; cbn [bind]; [|reflexivity].
  destruct (scanLoop_fraction_digits f6 Hf
              (mkScan (scanResult s1) (decimalMultiplier s1) true) s2 eq_refl S2)
    as [Hf2 Hm2].
  pose proof (scanLoop_inInt256 f6 _ _ S2) as Hr2.
  simpl in Hm2, Hr2. rewrite Hm1, Hlen in Hm2.
  change (Z.quot 1000000 (10 ^ Z.of_nat 6)) with 1 in Hm2.
  assert (Hr : inInt256 (scanResult s2)).
  { apply Hr2, Hr1. simpl. unfold inInt256, min_int256, max_int256. lia. }
  destruct (scanLoop_extra_digits extra He s2 Hf2 ltac:(lia) Hr) as [m ->].
  cbn [bind]. simpl. rewrite Hf2. reflexivity.
Qed.

Lemma parseCoordinateValue_decimal (isNegative : bool) (whole fraction : string) :
  digitsOnly whole = true ->
  parseCoordinateValue (decimal isNegative whole fraction)
  = afterSign isNegative (bytes whole ++ "."%char :: bytes fraction).
Proof.
  intros Hw. unfold decimal.
  rewrite parseCoordinateValue_sign, !bytes_app.
  change (bytes ".") with ["."%char].
  destruct isNegative; [reflexivity|].
  change (bytes "") with (@nil ascii). simpl app.
  unfold digitsOnly in Hw.
  destruct (bytes whole) as [|b rest]; simpl app; cbv iota.
  - reflexivity.
  - simpl in Hw. apply andb_prop in Hw as [Hb _].
    destruct (Ascii.eqb_spec b "-") as [->|_]; [discriminate|reflexivity].
Qed.

(** The part of C9 that the code has: the digits after the sixth digit of
    a fraction contribute nothing to the value. *)
Lemma parseCoordinateValue_extra_digits (isNegative : bool)
  (whole f6 extra : string) :
  digitsOnly whole = true ->
  digitsOnly f6 = true ->
  String.length f6 = 6%nat ->
  digitsOnly extra = true ->
  parseCoordinateValue (decimal isNegative whole (f6 ++ extra))
  = parseCoordinateValue (decimal isNegative whole f6).
Proof.
  intros Hw Hf Hlen He.
  rewrite !parseCoordinateValue_decimal by assumption.
  rewrite bytes_app. apply afterSign_extra_digits; try assumption.
  now rewrite <- length_bytes.
Qed.

Lemma isDigit_digitOf (b : ascii) : isDigit b = true -> 0 <= digitOf b <= 9.
Proof.
  unfold isDigit, digitOf. intros H. apply andb_prop in H as [H1 H2].
  apply Z.leb_le in H1, H2. lia.
Qed.

Lemma wholeValue_ge (ds : list ascii) :
  forallb isDigit ds = true -> forall acc, 0 <= acc -> acc <= wholeValue acc ds.
Proof.
  unfold wholeValue.
  induction ds as [|b ds IH]; simpl; intros Hds acc Hacc; [lia|].
  apply andb_prop in Hds as [Hb Hds]. apply isDigit_digitOf in Hb.
  specialize (IH Hds (acc * 10 + digitOf b)). lia.
Qed.

Lemma fractionValue_bounds (ds : list ascii) :
  forallb isDigit ds = true ->
  forall m, 0 <= m -> 0 <= fractionValue m ds <= m.
Proof.
  induction ds as [|b ds IH]; simpl; intros Hds m Hm; [lia|].
  apply andb_prop in Hds as [Hb Hds]. apply isDigit_digitOf in Hb.
  assert (Hq : 0 <= Z.quot m 10 /\ 10 * Z.quot m 10 <= m)
    by (Z.to_euclidean_division_equations; lia).
  specialize (IH Hds (Z.quot m 10) (proj1 Hq)). nia.
Qed.

(** The digits before the ['.'] are read in base ten. *)
Lemma scanLoop_whole_value (ds : list ascii) :
  forallb isDigit ds = true ->
  forall r m, 0 <= r -> wholeValue r ds <= max_int256 ->
              scanLoop ds (mkScan r m false) = Ok (mkScan (wholeValue r ds) m false).
Proof.
  induction ds as [|b ds IH]; intros Hds r m Hr Hmax; [reflexivity|].
  simpl in Hds. apply andb_prop in Hds as [Hb Hds].
  rewrite (scanLoop_digit b ds _ Hb). simpl negb. cbv iota.
  cbn [scanResult decimalMultiplier].
  pose proof (isDigit_digitOf b Hb) as Hd. unfold digitOf in Hd.
  assert (Hstep : r * 10 + (byte_code b - 48) <= max_int256).
  { pose proof (wholeValue_ge ds Hds (r * 10 + (byte_code b - 48))) as Hge.
    unfold wholeValue in Hmax, Hge. simpl in Hmax. unfold digitOf in Hmax at 2.
    lia. }
  unfold mulI, addI.
  rewrite int256_ok by (unfold min_int256, max_int256 in *; lia). cbn [bind].
  rewrite int256_ok by (unfold min_int256, max_int256 in *; lia). cbn [bind].
  apply IH; [assumption|lia|exact Hmax].
Qed.

(** The digits after the ['.'] are added with their weights, to a whole
    part that is left as it stands. *)
Lemma scanLoop_fraction_value (ds : list ascii) :
  forallb isDigit ds = true ->
  forall r m, 0 <= r -> 0 <= m -> r + m <= max_int256 ->
              exists m', scanLoop ds (mkScan r m true)
                         = Ok (mkScan (r + fractionValue m ds) m' true).
Proof.
  induction ds as [|b ds IH]; intros Hds r m Hr Hm Hmax.
  - exists m. simpl. now rewrite Z.add_0_r.
  - simpl in Hds. apply andb_prop in Hds as [Hb Hds].
    rewrite (scanLoop_digit b ds _ Hb). simpl negb. cbv iota.
    cbn [scanResult decimalMultiplier].
    pose proof (isDigit_digitOf b Hb) as Hd. unfold digitOf in Hd.
    assert (Hq : 0 <= Z.quot m 10 /\ 10 * Z.quot m 10 <= m)
      by (Z.to_euclidean_division_equations; lia).
    rewrite divI_pos by (unfold min_int256, max_int256 in *; lia). cbn [bind].
    unfold mulI, addI.
    rewrite int256_ok by (unfold min_int256, max_int256 in *; nia). cbn [bind].
    rewrite int256_ok by (unfold min_int256, max_int256 in *; nia). cbn [bind].
    destruct (IH Hds (r + (byte_code b - 48) * Z.quot m 10) (Z.quot m 10))
      as [m' Hm']; [nia|lia|nia|].
    exists m'. rewrite Hm'. simpl fractionValue. unfold digitOf.
    now rewrite Z.add_assoc.
Qed.

(** What the parser returns on a number written with a ['.']: the whole
    part plus the six-decimal truncation of the fraction, where the
    six-decimal truncation of the number is [1000000] times the whole part
    plus that of the fraction. *)
Lemma parseCoordinateValue_decimal_value (isNegative : bool)
  (whole fraction : string) :
  digitsOnly whole = true ->
  digitsOnly fraction = true ->
  wholeValue 0 (bytes whole) + 1000000 <= max_int256 ->
  parseCoordinateValue (decimal isNegative whole fraction)
  = Ok ((if isNegative then -1 else 1)
        * (wholeValue 0 (bytes whole) + fractionValue 1000000 (bytes fraction))).
Proof.
  intros Hw Hf Hmax.
  rewrite parseCoordinateValue_decimal by assumption.
  unfold afterSign. rewrite scanLoop_app.
  pose proof (wholeValue_ge (bytes whole) Hw 0 ltac:(lia)) as Hge.
  rewrite scanLoop_whole_value by (assumption || lia). cbn [bind].
  change (scanLoop ("."%char :: bytes fraction)
            (mkScan (wholeValue 0 (bytes whole)) 1000000 false))
    with (scanLoop (bytes fraction)
            (mkScan (wholeValue 0 (bytes whole)) 1000000 true)).
  destruct (scanLoop_fraction_value (bytes fraction) Hf
              (wholeValue 0 (bytes whole)) 1000000) as [m' ->]; try lia.
  cbn [bind foundDecimal scanResult negb].
  pose proof (fractionValue_bounds (bytes fraction) Hf 1000000 ltac:(lia)) as Hb.
  destruct isNegative.
  - unfold negI. rewrite int256_ok by (unfold min_int256, max_int256 in *; lia).
    f_equal; lia.
  - f_equal; lia.
Qed.

Example parseCoordinateValue_decimal_value_example :
  parseCoordinateValue "1.2345678" = Ok (1 + 234567).
Proof.
  apply (parseCoordinateValue_decimal_value false "1" "2345678");
    first [reflexivity | vm_compute; discriminate].
Qed.

(** C9: on ["1.2345678"], whose six-decimal truncation is [1234567], the
    parser returns [234568]: the seventh and eighth digits contribute
    nothing, as on ["1.234567"], but the whole part is added as it stands
    to the scaled fraction, where a number without ['.'] is multiplied by
    [1000000]. *)
Theorem parseCoordinateValue_whole_part_not_scaled :
  parseCoordinateValue "1.2345678" = Ok 234568
  /\ parseCoordinateValue "1.234567" = Ok 234568
  /\ parseCoordinateValue "0.2345678" = Ok 234567
  /\ parseCoordinateValue "1" = Ok 1000000
  /\ parseCoordinate "35.6895,139.6917" = Ok (mkCoordinate 689535 691839).
Proof. repeat split; reflexivity. Qed.

(** * Further properties of the contract *)

(** ** The square root *)

(** One turn of Newton's iteration from any positive [w] stays at or above
    the integer square root. *)
Lemma newton_above_sqrt (z w : N) :
  (1 <= w)%N -> (N.sqrt z <= (z / w + w) / 2)%N.
Proof.
  intros Hw.
  pose proof (N.sqrt_spec' z) as [Hs _].
  apply N.div_le_lower_bound; [lia|].
  pose proof (N.mul_succ_div_gt z w ltac:(lia)) as Hq.
  set (s := N.sqrt z) in *. set (q := (z / w)%N) in *.
  destruct (N.le_gt_cases (2 * s) (q + w)) as [H|H]; [exact H|exfalso].
  assert (H1 : (w * (q + 1 + w) <= w * (2 * s))%N)
    by (apply N.mul_le_mono_l; lia).
  clearbody s q.
  assert (H2 : (s * s + w * w < 2 * s * w)%N) by nia.
  clear - H2.
  pose proof (Z.square_nonneg (Z.of_N s - Z.of_N w)) as H3.
  lia.
Qed.

(** From a [w] at or above the root, with [y] the next iterate, the loop
    ends on the integer square root, without panic. *)
Lemma sqrtLoop_floor (z y w : N) :
  (1 <= w <= z)%N -> Z.of_N z <= max_int256 -> (N.sqrt z <= w)%N ->
  y = ((z / w + w) / 2)%N ->
  sqrtLoop z y w = Ok (N.sqrt z).
Proof.
  funelim (sqrtLoop z y w); intros Hw Hz Hs Hy.
  - pose proof (proj1 (N.ltb_lt _ _) Hlt) as Hyw.
    assert (Hsy : (N.sqrt z <= y)%N) by (subst y; apply newton_above_sqrt; lia).
    assert (Hs1 : (1 <= N.sqrt z)%N) by (apply N.sqrt_le_square; lia).
    destruct (N.eqb_spec y 0) as [Hy0|_]; [lia|].
    assert (Hq : (z / y <= z)%N) by (apply N.Div0.div_le_upper_bound; nia).
    destruct (Z.leb_spec (Z.of_N (z / y + y)) max_uint256) as [_|Hbig];
      [|unfold max_int256, max_uint256 in *; lia].
    match goal with IH : _ -> _ -> _ -> _ -> sqrtLoop _ _ _ = _ |- _ => apply IH end;
      try lia; reflexivity.
  - pose proof (proj1 (N.ltb_ge _ _) e) as Hyw.
    f_equal. apply N.le_antisymm; [|assumption].
    apply N.sqrt_le_square.
    subst y.
    assert (H2 : (2 * w <= z / w + w)%N).
    { pose proof (N.Div0.mul_div_le (z / w + w) 2). lia. }
    assert (Hwq : (w <= z / w)%N) by lia.
    pose proof (N.Div0.mul_div_le z w). nia.
Qed.

Lemma sqrt_is_floor (x : Z) :
  min_int256 <= x <= max_int256 ->
  sqrt x = Ok (Z.sqrt x)
  /\ (0 <= x -> Z.sqrt x * Z.sqrt x <= x < (Z.sqrt x + 1) * (Z.sqrt x + 1))
  /\ (x <= 0 -> Z.sqrt x = 0).
Proof.
  intros Hx. split; [|split].
  - unfold sqrt. destruct (Z.leb_spec x 0) as [Hle|Hgt].
    + f_equal. destruct (Z.eq_dec x 0) as [->|Hne]; [reflexivity|].
      symmetry. apply Z.sqrt_neg. lia.
    + assert (Hu : toUint256 x = x).
      { unfold toUint256. apply Z.mod_small. unfold max_int256 in Hx. lia. }
      rewrite Hu. unfold addU, uint256.
      destruct (Z.leb_spec 0 (x + 1)); [|lia].
      destruct (Z.leb_spec (x + 1) max_uint256);
        [|unfold max_int256, max_uint256 in *; lia].
      cbn [andb bind].
      rewrite (sqrtLoop_floor (Z.to_N x) (Z.to_N ((x + 1) / 2)) (Z.to_N x)).
      * cbn [bind]. f_equal.
        assert (Hs : Z.of_N (N.sqrt (Z.to_N x)) = Z.sqrt x).
        { rewrite <- (Z2N.id x) at 2 by lia.
          destruct (Z.to_N x); [reflexivity|]. simpl. reflexivity. }
        rewrite Hs. unfold toInt256.
        pose proof (Z.sqrt_le_lin x ltac:(lia)).
        destruct (Z.leb_spec (Z.sqrt x) max_int256); lia.
      * lia.
      * lia.
      * apply N.sqrt_le_lin.
      * rewrite Z2N.inj_div by lia. rewrite Z2N.inj_add by lia.
        rewrite N.div_same by lia. f_equal. lia.
  - intros H0. pose proof (Z.sqrt_spec x H0) as Hs. cbv zeta in Hs. lia.
  - intros H0. destruct (Z.eq_dec x 0) as [->|Hne]; [reflexivity|].
    apply Z.sqrt_neg. lia.
Qed.

(** X1: [sqrt] never panics on a signed word; it returns 0 on a value that
    is not positive and the integer square root on the others, the number
    [r] with [r * r <= x < (r + 1) * (r + 1)]. *)
Theorem sqrt_is_integer_square_root (x : Z) :
  min_int256 <= x <= max_int256 ->
  sqrt x = Ok (Z.sqrt x)
  /\ (0 <= x -> Z.sqrt x * Z.sqrt x <= x < (Z.sqrt x + 1) * (Z.sqrt x + 1))
  /\ (x <= 0 -> Z.sqrt x = 0).
Proof. apply sqrt_is_floor. Qed.

Lemma sqrt_is_integer_square_root_example :
  sqrt 1000000 = Ok (Z.sqrt 1000000)
  /\ (0 <= 1000000 ->
      Z.sqrt 1000000 * Z.sqrt 1000000 <= 1000000
      < (Z.sqrt 1000000 + 1) * (Z.sqrt 1000000 + 1))
  /\ (1000000 <= 0 -> Z.sqrt 1000000 = 0).
Proof.
  apply (sqrt_is_integer_square_root 1000000). vm_compute. split; discriminate.
Defined.

(** ** The estimator on nominal coordinates *)

Lemma square_bound (a b : Z) : Z.abs a <= b -> 0 <= a * a <= b * b.
Proof.
  intros H. rewrite <- (Z.abs_square a). pose proof (Z.abs_nonneg a).
  split; [apply Z.mul_nonneg_nonneg; assumption|].
  apply Z.mul_le_mono_nonneg; lia.
Qed.

Lemma toRadians_in_range (deg : Z) :
  min_int256 <= deg * 3141592 <= max_int256 ->
  toRadians deg = Ok (radiansOf deg).
Proof.
  intros H. unfold toRadians, radiansOf, mulI.
  rewrite int256_ok by assumption. cbn [bind].
  change (int256 (180 * precision)) with (Ok 180000000). cbn [bind].
  now rewrite divI_pos by (assumption || lia).
Qed.

Lemma radiansOf_bound (deg bound : Z) :
  Z.abs deg <= bound -> Z.abs (radiansOf deg) * 180000000 <= bound * 3141592.
Proof.
  intros H. unfold radiansOf, precision.
  Z.to_euclidean_division_equations. lia.
Qed.

Lemma distanceBetween_total (coord1 coord2 : Coordinate) :
  nominal coord1 -> nominal coord2 ->
  distanceBetween coord1 coord2
  = Ok (Z.sqrt (northSouth coord1 coord2 * northSouth coord1 coord2
                + eastWest (if Z.abs (latitude coord1) <? precision
                            then 1000000 else 999999) coord1 coord2
                  * eastWest (if Z.abs (latitude coord1) <? precision
                              then 1000000 else 999999) coord1 coord2))
  /\ exists d, distanceBetween coord1 coord2 = Ok d /\ 0 <= d <= 44756000.
Proof.
  intros [Hlat1 Hlon1] [Hlat2 Hlon2].
  set (c := if Z.abs (latitude coord1) <? precision then 1000000 else 999999).
  assert (Hc : 999999 <= c <= 1000000)
    by (unfold c; destruct (Z.abs (latitude coord1) <? precision); lia).
  assert (Hcos : cosLat1 coord1 = Ok c) by (now apply cosLat1_nominal).
  clearbody c.
  pose proof (radiansOf_bound _ _ Hlat1) as Ra1.
  pose proof (radiansOf_bound _ _ Hlon1) as Ro1.
  pose proof (radiansOf_bound _ _ Hlat2) as Ra2.
  pose proof (radiansOf_bound _ _ Hlon2) as Ro2.
  unfold precision in *.
  assert (Hx : Z.abs (northSouth coord1 coord2) <= 20015083).
  { unfold northSouth, earthRadius, precision.
    set (a1 := radiansOf (latitude coord1)) in *.
    set (a2 := radiansOf (latitude coord2)) in *. clearbody a1 a2.
    Z.to_euclidean_division_equations. lia. }
  assert (Hp : Z.abs ((radiansOf (longitude coord2) - radiansOf (longitude coord1))
                       * 6371000 * c) <= 6283184 * 6371000 * 1000000).
  { set (o1 := radiansOf (longitude coord1)) in *.
    set (o2 := radiansOf (longitude coord2)) in *. clearbody o1 o2. nia. }
  assert (Hy : Z.abs (eastWest c coord1 coord2) <= 40030166).
  { unfold eastWest, earthRadius, precision.
    set (p := (radiansOf (longitude coord2) - radiansOf (longitude coord1))
              * 6371000 * c) in *. clearbody p.
    Z.to_euclidean_division_equations. lia. }
  assert (Heq : distanceBetween coord1 coord2
                = Ok (Z.sqrt (northSouth coord1 coord2 * northSouth coord1 coord2
                              + eastWest c coord1 coord2 * eastWest c coord1 coord2))).
  { unfold distanceBetween.
    rewrite !toRadians_in_range by (unfold min_int256, max_int256; lia).
    cbn [bind]. unfold subI.
    rewrite !int256_ok by (unfold min_int256, max_int256; lia). cbn [bind].
    rewrite Hcos. cbn [bind].
    change (toInt256 earthRadius) with 6371000.
    change (mulI precision precision) with (Ok 1000000000000).
    rewrite mulI_ok by (unfold min_int256, max_int256; lia). cbn [bind].
    rewrite divI_pos by (unfold min_int256, max_int256, precision; lia).
    cbn [bind].
    rewrite mulI_ok by (unfold min_int256, max_int256; lia). cbn [bind].
    rewrite mulI_ok by (unfold min_int256, max_int256; lia). cbn [bind].
    rewrite divI_pos by (unfold min_int256, max_int256; lia). cbn [bind].
    change (Z.quot ((radiansOf (latitude coord2) - radiansOf (latitude coord1)) * 6371000)
                   precision) with (northSouth coord1 coord2).
    change (Z.quot ((radiansOf (longitude coord2) - radiansOf (longitude coord1))
                    * 6371000 * c) 1000000000000) with (eastWest c coord1 coord2).
    set (x := northSouth coord1 coord2) in *.
    set (y := eastWest c coord1 coord2) in *. clearbody x y.
    pose proof (square_bound x _ Hx) as Hxx.
    pose proof (square_bound y _ Hy) as Hyy.
    rewrite !mulI_ok by (unfold min_int256, max_int256; lia). cbn [bind].
    unfold addI. rewrite int256_ok by (unfold min_int256, max_int256; lia).
    cbn [bind].
    set (z := x * x + y * y) in *.
    assert (Hz : 0 <= z <= 2003017840000000) by (unfold z; lia).
    clearbody z.
    destruct (sqrt_is_floor z) as [Hs _];
      [unfold min_int256, max_int256; lia|].
    rewrite Hs. cbn [bind]. f_equal.
    unfold toUint256. apply Z.mod_small.
    pose proof (Z.sqrt_nonneg z).
    pose proof (Z.sqrt_le_lin z ltac:(lia)). lia. }
  split; [exact Heq|].
  eexists. split; [exact Heq|].
  split; [apply Z.sqrt_nonneg|].
  set (x := northSouth coord1 coord2) in *.
  set (y := eastWest c coord1 coord2) in *. clearbody x y.
  pose proof (square_bound x _ Hx) as Hxx.
  pose proof (square_bound y _ Hy) as Hyy.
  apply Z.lt_succ_r. apply Z.sqrt_lt_square; lia.
Qed.

(** X3: on two coordinates within 90 degrees of latitude and 180 of
    longitude no step of the estimator overflows: the distance is the
    integer square root of the sum of the squares of the two offsets, and
    it is at most 44756000 metres. *)
Theorem distanceBetween_nominal (coord1 coord2 : Coordinate) :
  nominal coord1 -> nominal coord2 ->
  distanceBetween coord1 coord2
  = Ok (Z.sqrt (northSouth coord1 coord2 * northSouth coord1 coord2
                + eastWest (if Z.abs (latitude coord1) <? precision
                            then 1000000 else 999999) coord1 coord2
                  * eastWest (if Z.abs (latitude coord1) <? precision
                              then 1000000 else 999999) coord1 coord2))
  /\ exists d, distanceBetween coord1 coord2 = Ok d /\ 0 <= d <= 44756000.
Proof. apply distanceBetween_total. Qed.

Lemma distanceBetween_nominal_example :
  distanceBetween (mkCoordinate 0 0) (mkCoordinate 1000000 90000000) = Ok 10008158
  /\ exists d, distanceBetween (mkCoordinate 0 0) (mkCoordinate 1000000 90000000) = Ok d
               /\ 0 <= d <= 44756000.
Proof.
  apply (distanceBetween_nominal (mkCoordinate 0 0) (mkCoordinate 1000000 90000000));
    unfold nominal; simpl; lia.
Defined.

(** ** A point and itself *)

Lemma distanceBetween_self_zero (coord : Coordinate) (d : Z) :
  distanceBetween coord coord = Ok d -> d = 0.
Proof.
  unfold distanceBetween.
  destruct (toRadians (latitude coord)) as [a|]; cbn [bind]; [|discriminate].
  destruct (toRadians (longitude coord)) as [o|]; cbn [bind]; [|discriminate].
  unfold subI. rewrite !Z.sub_diag. change (int256 0) with (Ok 0). cbn [bind].
  destruct (cosLat1 coord) as [c|]; cbn [bind]; [|discriminate].
  change (mulI 0 (toInt256 earthRadius)) with (Ok 0). cbn [bind].
  change (divI 0 precision) with (Ok 0). cbn [bind].
  unfold mulI at 1. rewrite Z.mul_0_l. change (int256 0) with (Ok 0). cbn [bind].
  change (mulI precision precision) with (Ok 1000000000000). cbn [bind].
  change (divI 0 1000000000000) with (Ok 0). cbn [bind].
  change (mulI 0 0) with (Ok 0). cbn [bind].
  change (addI 0 0) with (Ok 0). cbn [bind].
  change (sqrt 0) with (Ok 0). cbn [bind].
  intros H. now inversion H.
Qed.

Lemma calculateDistance_self_zero (X : string) (d : Z) :
  calculateDistance X X = Ok d -> d = 0.
Proof.
  unfold calculateDistance.
  destruct (parseCoordinate X) as [coord|]; cbn [bind]; [|discriminate].
  apply distanceBetween_self_zero.
Qed.

(** X2: the estimate from a point to itself is 0 whenever it is
    returned, and it is returned on every nominal coordinate. *)
Theorem calculateDistance_self (X : string) (coord : Coordinate) :
  parseCoordinate X = Ok coord ->
  (forall d, calculateDistance X X = Ok d -> d = 0)
  /\ (nominal coord -> calculateDistance X X = Ok 0).
Proof.
  intros HX. split; [apply calculateDistance_self_zero|].
  intros Hnom. unfold calculateDistance. rewrite HX. cbn [bind].
  destruct (distanceBetween_total coord coord Hnom Hnom) as [_ (d & Hd & _)].
  rewrite Hd. f_equal. now apply (distanceBetween_self_zero coord).
Qed.

Lemma calculateDistance_self_example :
  (forall d, calculateDistance "35.6895,139.6917" "35.6895,139.6917" = Ok d -> d = 0)
  /\ (nominal (mkCoordinate 689535 691839) ->
      calculateDistance "35.6895,139.6917" "35.6895,139.6917" = Ok 0).
Proof.
  apply (calculateDistance_self "35.6895,139.6917" (mkCoordinate 689535 691839)).
  reflexivity.
Defined.

(** ** The errors of the parser *)

Lemma findComma_none (bs : list ascii) (i : nat) :
  forallb (fun c => negb (Ascii.eqb c ",")) bs = true -> findComma bs i = 0%nat.
Proof.
  revert i. induction bs as [|b bs IH]; intros i H; simpl in *; [reflexivity|].
  apply andb_prop in H as [Hb Hbs].
  destruct (Ascii.eqb b ","); [discriminate|]. now apply IH.
Qed.

(** A string has no separator, or a first one. *)
Lemma first_comma (s : string) :
  commaFree s = true
  \/ exists lat lon, s = (lat ++ "," ++ lon)%string /\ commaFree lat = true.
Proof.
  induction s as [|c s IH]; [now left|].
  destruct (Ascii.eqb_spec c ",") as [->|Hc].
  - right. exists "", s. split; reflexivity.
  - destruct IH as [IH|(lat & lon & -> & Hlat)].
    + left. unfold commaFree in *. simpl.
      destruct (Ascii.eqb_spec c ","); [contradiction|]. exact IH.
    + right. exists (String c lat), lon. split; [reflexivity|].
      unfold commaFree in *. simpl.
      destruct (Ascii.eqb_spec c ","); [contradiction|]. exact Hlat.
Qed.

Lemma scanLoop_errors (bs : list ascii) :
  forall s e, scanLoop bs s = Err e ->
              e = invalidCharacter \/ e = Panic ARITHMETIC.
Proof.
  induction bs as [|b bs IH]; intros s e H; simpl in H; [discriminate|].
  destruct (Ascii.eqb b "."); [now apply IH in H|].
  unfold uint8 in H.
  destruct ((0 <=? byte_code b - 48) && (byte_code b - 48 <=? 255));
    cbn [bind] in H; [|inversion H; now right].
  unfold require in H.
  destruct (byte_code b - 48 <=? 9); cbn [bind] in H; [|inversion H; now left].
  destruct (negb (foundDecimal s)).
  - destruct (mulI _ _) as [r10|e1] eqn:E1; cbn [bind] in H;
      [|inversion H; subst; right; now apply int256_err in E1].
    destruct (addI _ _) as [r|e2] eqn:E2; cbn [bind] in H;
      [now apply IH in H|inversion H; subst; right; now apply int256_err in E2].
  - unfold divI in H. change (10 =? 0) with false in H. cbv iota in H.
    destruct (int256 _) as [m|e0] eqn:E0; cbn [bind] in H;
      [|inversion H; subst; right; now apply int256_err in E0].
    destruct (mulI _ _) as [t|e1] eqn:E1; cbn [bind] in H;
      [|inversion H; subst; right; now apply int256_err in E1].
    destruct (addI _ _) as [r|e2] eqn:E2; cbn [bind] in H;
      [now apply IH in H|inversion H; subst; right; now apply int256_err in E2].
Qed.

Lemma parseCoordinateValue_errors (str : string) (e : error) :
  parseCoordinateValue str = Err e ->
  e = invalidCharacter \/ e = Panic ARITHMETIC.
Proof.
  rewrite parseCoordinateValue_sign.
  assert (H : forall neg body, afterSign neg body = Err e ->
                               e = invalidCharacter \/ e = Panic ARITHMETIC).
  { intros neg body. unfold afterSign.
    destruct (scanLoop body _) as [s|e0] eqn:S; cbn [bind].
    - destruct (negb (foundDecimal s)).
      + destruct (mulI _ _) as [r|e1] eqn:E1; cbn [bind].
        * destruct neg; [|discriminate]. intros H. right. now apply int256_err in H.
        * intros H. inversion H. subst. right. now apply int256_err in E1.
      + cbn [bind]. destruct neg; [|discriminate].
        intros H. right. now apply int256_err in H.
    - intros H. inversion H. subst. now apply scanLoop_errors in S. }
  destruct (bytes str) as [|b rest]; [apply H|].
  destruct (Ascii.eqb b "-"); apply H.
Qed.

(** X4: the parser fails in three ways only: with "Invalid coordinate
    format", with "Invalid character in coordinate", or with the arithmetic
    panic; it never reads a byte out of the bounds of the string.  The
    format error is the one of a string without [','], and of a string
    whose first [','] is its first or its last byte, and of no other. *)
Theorem parseCoordinate_errors (s : string) :
  (forall e, parseCoordinate s = Err e ->
             e = invalidFormat \/ e = invalidCharacter \/ e = Panic ARITHMETIC)
  /\ (commaFree s = true -> parseCoordinate s = Err invalidFormat)
  /\ (forall lat lon,
        s = (lat ++ "," ++ lon)%string -> commaFree lat = true ->
        (parseCoordinate s = Err invalidFormat <-> lat = "" \/ lon = "")).
Proof.
  assert (Hfree : commaFree s = true -> parseCoordinate s = Err invalidFormat).
  { intros H. unfold parseCoordinate. unfold commaFree in H.
    now rewrite findComma_none. }
  assert (Hsplit : forall lat lon,
             s = (lat ++ "," ++ lon)%string -> commaFree lat = true ->
             (lat = "" \/ lon = "" -> parseCoordinate s = Err invalidFormat)
             /\ (lat <> "" -> lon <> "" ->
                 parseCoordinate s
                 = (latitude <- parseCoordinateValue lat ;;
                    longitude <- parseCoordinateValue lon ;;
                    Ok (mkCoordinate latitude longitude)))).
  { intros lat lon -> Hlat. rewrite parseCoordinate_split by assumption. split.
    - intros [->| ->]; [reflexivity|]. simpl. now rewrite andb_false_r.
    - intros Nlat Nlon. destruct lat; [contradiction|]. destruct lon; [contradiction|].
      reflexivity. }
  split; [|split].
  - intros e He. destruct (first_comma s) as [H|(lat & lon & Hs & Hlat)].
    + rewrite (Hfree H) in He. inversion He. now left.
    + destruct (Hsplit lat lon Hs Hlat) as [Hempty Hfull].
      destruct lat as [|a lat]; [rewrite Hempty in He by (now left); inversion He; now left|].
      destruct lon as [|b lon]; [rewrite Hempty in He by (now right); inversion He; now left|].
      rewrite Hfull in He by discriminate.
      destruct (parseCoordinateValue (String a lat)) as [la|e1] eqn:E1; cbn [bind] in He.
      * destruct (parseCoordinateValue (String b lon)) as [lo|e2] eqn:E2;
          cbn [bind] in He; [discriminate|].
        inversion He. subst. right. now apply parseCoordinateValue_errors in E2.
      * inversion He. subst. right. now apply parseCoordinateValue_errors in E1.
  - exact Hfree.
  - intros lat lon Hs Hlat. destruct (Hsplit lat lon Hs Hlat) as [Hempty Hfull].
    split; [|exact Hempty].
    intros He. destruct lat as [|a lat]; [now left|].
    destruct lon as [|b lon]; [now right|].
    rewrite Hfull in He by discriminate.
    destruct (parseCoordinateValue (String a lat)) as [la|e1] eqn:E1; cbn [bind] in He.
    + destruct (parseCoordinateValue (String b lon)) as [lo|e2] eqn:E2;
        cbn [bind] in He; [discriminate|].
      inversion He. subst. apply parseCoordinateValue_errors in E2.
      destruct E2; discriminate.
    + inversion He. subst. apply parseCoordinateValue_errors in E1.
      destruct E1; discriminate.
Qed.

(** ** Signs, whole numbers and bytes that are not digits *)

(** The scanning loop never goes below zero. *)
Lemma scanLoop_nonneg (bs : list ascii) :
  forall s s', scanLoop bs s = Ok s' ->
               0 <= scanResult s -> 0 <= decimalMultiplier s ->
               0 <= scanResult s'.
Proof.
  induction bs as [|b bs IH]; intros s s' H Hr Hm.
  - simpl in H. inversion H. now subst.
  - simpl in H. destruct (Ascii.eqb b "."); [now apply (IH _ _ H)|].
    unfold uint8 in H.
    destruct (Z.leb_spec 0 (byte_code b - 48)) as [Hd|_];
      [|cbn [andb bind] in H; discriminate].
    destruct (byte_code b - 48 <=? 255); cbn [andb bind] in H; [|discriminate].
    destruct (require _ _); cbn [bind] in H; [|discriminate].
    destruct (negb (foundDecimal s)).
    + destruct (mulI _ _) as [r10|] eqn:E1; cbn [bind] in H; [|discriminate].
      destruct (addI _ _) as [r|] eqn:E2; cbn [bind] in H; [|discriminate].
      apply int256_inv in E1 as [-> _]. apply int256_inv in E2 as [-> _].
      apply (IH _ _ H); simpl; lia.
    + unfold divI in H. change (10 =? 0) with false in H. cbv iota in H.
      destruct (int256 (Z.quot _ _)) as [m|] eqn:E0; cbn [bind] in H; [|discriminate].
      destruct (mulI _ _) as [t|] eqn:E1; cbn [bind] in H; [|discriminate].
      destruct (addI _ _) as [r|] eqn:E2; cbn [bind] in H; [|discriminate].
      apply int256_inv in E0 as [-> _]. apply int256_inv in E1 as [-> _].
      apply int256_inv in E2 as [-> _].
      assert (0 <= Z.quot (decimalMultiplier s) 10)
        by (Z.to_euclidean_division_equations; lia).
      apply (IH _ _ H); simpl; nia.
Qed.

Lemma afterSign_negates (body : list ascii) :
  afterSign true body = (r <- afterSign false body ;; Ok (- r)).
Proof.
  unfold afterSign.
  destruct (scanLoop body _) as [s|] eqn:S; cbn [bind]; [|reflexivity].
  pose proof (scanLoop_nonneg body _ _ S ltac:(simpl; lia) ltac:(simpl; lia)) as H0.
  pose proof (scanLoop_inInt256 body _ _ S) as Hr.
  assert (Hs : inInt256 (scanResult s))
    by (apply Hr; simpl; unfold inInt256, min_int256, max_int256; lia).
  unfold inInt256 in Hs.
  destruct (negb (foundDecimal s)).
  - destruct (mulI (scanResult s) 1000000) as [v|] eqn:V; cbn [bind]; [|reflexivity].
    apply int256_inv in V as [-> V]. apply int256_ok.
    unfold min_int256, max_int256 in *. lia.
  - cbn [bind]. apply int256_ok. unfold min_int256, max_int256 in *. lia.
Qed.

(** X5: a leading ['-'] negates: the value of ["-" ++ s] is the opposite
    of the value of [s], and fails as [s] fails, for every [s] that does
    not begin with ['-'] itself. *)
Theorem parseCoordinateValue_leading_minus (s : string) :
  startsWithMinus s = false ->
  parseCoordinateValue ("-" ++ s) = (r <- parseCoordinateValue s ;; Ok (- r)).
Proof.
  intros H. rewrite !parseCoordinateValue_sign, bytes_app.
  change (bytes "-") with ["-"%char]. simpl app.
  change (Ascii.eqb "-" "-") with true. cbv iota.
  unfold startsWithMinus in H.
  destruct (bytes s) as [|b rest]; [apply afterSign_negates|].
  rewrite H. apply afterSign_negates.
Qed.

Lemma parseCoordinateValue_leading_minus_example :
  parseCoordinateValue "-74.0060" = (r <- parseCoordinateValue "74.0060" ;; Ok (- r)).
Proof.
  apply (parseCoordinateValue_leading_minus "74.0060"). reflexivity.
Defined.

(** X6: a number written with digits only, with or without a leading
    ['-'], parses to a million times the number it reads as in base ten,
    as long as this fits a signed word; the empty string parses to 0. *)
Theorem parseCoordinateValue_whole_number (whole : string) :
  digitsOnly whole = true ->
  wholeValue 0 (bytes whole) * 1000000 <= max_int256 ->
  parseCoordinateValue whole = Ok (wholeValue 0 (bytes whole) * 1000000)
  /\ parseCoordinateValue ("-" ++ whole)
     = Ok (- (wholeValue 0 (bytes whole) * 1000000)).
Proof.
  intros Hw Hmax.
  pose proof (wholeValue_ge (bytes whole) Hw 0 ltac:(lia)) as Hge.
  assert (Hunsigned : afterSign false (bytes whole)
                      = Ok (wholeValue 0 (bytes whole) * 1000000)).
  { unfold afterSign.
    rewrite scanLoop_whole_value by (assumption || lia).
    cbn [bind foundDecimal scanResult negb].
    rewrite mulI_ok by (unfold min_int256, max_int256 in *; lia). reflexivity. }
  assert (Hplain : parseCoordinateValue whole
                   = Ok (wholeValue 0 (bytes whole) * 1000000)).
  { rewrite parseCoordinateValue_sign. unfold digitsOnly in Hw.
    destruct (bytes whole) as [|b rest] eqn:E; [exact Hunsigned|].
    simpl in Hw. apply andb_prop in Hw as [Hb _].
    destruct (Ascii.eqb_spec b "-") as [->|_]; [discriminate|exact Hunsigned]. }
  split; [exact Hplain|].
  rewrite parseCoordinateValue_sign, bytes_app.
  change (bytes "-") with ["-"%char]. simpl app.
  change (Ascii.eqb "-" "-") with true. cbv iota.
  rewrite afterSign_negates, Hunsigned. reflexivity.
Qed.

Lemma parseCoordinateValue_whole_number_example :
  parseCoordinateValue "139" = Ok (wholeValue 0 (bytes "139") * 1000000)
  /\ parseCoordinateValue "-139" = Ok (- (wholeValue 0 (bytes "139") * 1000000)).
Proof.
  apply (parseCoordinateValue_whole_number "139");
    first [reflexivity | vm_compute; discriminate].
Defined.




Example parseCoordinateValue_bad_bytes :
  parseCoordinateValue "12a3" = Err invalidCharacter
  /\ parseCoordinateValue "12 3" = Err (Panic ARITHMETIC)
  /\ parseCoordinateValue "1-2" = Err (Panic ARITHMETIC)
  /\ parseCoordinateValue "+12" = Err (Panic ARITHMETIC).
Proof. repeat split; reflexivity. Qed.

(** ** Bounds of [substring] *)



(** ** Exposure queries *)

Lemma exposureLoop_counts (currentTime threshold radius : Z) (loc : string)
  (individuals : list InfectedIndividual) :
  currentTime <= max_uint256 ->
  forallb (recordedBy currentTime) individuals = true ->
  forallb (measurable currentTime threshold loc) individuals = true ->
  forall exposed count,
    0 <= count ->
    count + Z.of_nat (List.length individuals) <= max_uint256 ->
    exposureLoop currentTime loc threshold radius individuals (exposed, count)
    = Ok (exposed || (0 <? exposures currentTime threshold radius loc individuals),
          count + exposures currentTime threshold radius loc individuals).
Proof.
  intros Hnow. unfold exposures.
  induction individuals as [|p rest IH]; intros Hpast Hmeas exposed count Hc Hmax.
  - simpl. now rewrite orb_false_r, Z.add_0_r.
  - simpl in Hpast, Hmeas.
    apply andb_prop in Hpast as [Hp Hpast]. apply andb_prop in Hmeas as [Hm Hmeas].
    unfold recordedBy in Hp. apply andb_prop in Hp as [Hp0 Hp1].
    apply Z.leb_le in Hp0, Hp1.
    simpl exposureLoop. unfold subU, uint256.
    destruct (Z.leb_spec 0 (currentTime - individualTimestamp p)); [|lia].
    destruct (Z.leb_spec (currentTime - individualTimestamp p) max_uint256); [|lia].
    cbn [andb bind]. simpl filter.
    rewrite Z.gtb_ltb, Z.ltb_antisym.
    change (currentTime - individualTimestamp p <=? threshold)
      with (inWindow currentTime threshold p).
    simpl List.length in Hmax. unfold measurable in Hm.
    destruct (inWindow currentTime threshold p); simpl negb; cbv iota; cbn [andb].
    + simpl in Hm. unfold isWithinRadius.
      destruct (calculateDistance loc (individualLocation p)) as [d|] eqn:D;
        [|discriminate].
      assert (Hex : exposes loc radius p = (d <=? radius))
        by (unfold exposes; now rewrite D).
      rewrite Hex. cbn [bind].
      destruct (d <=? radius).
      * unfold addU, uint256.
        destruct (Z.leb_spec 0 (count + 1)); [|lia].
        destruct (Z.leb_spec (count + 1) max_uint256); [|lia].
        cbn [andb bind]. rewrite IH by (assumption || lia).
        simpl List.length. f_equal. f_equal; [|lia].
        destruct exposed; [reflexivity|]. simpl.
        symmetry. apply Z.ltb_lt. lia.
      * rewrite IH by (assumption || lia). reflexivity.
    + rewrite IH by (assumption || lia). reflexivity.
Qed.

(** X9: on a ledger whose records are not dated after the current time
    and whose records inside the window have a computed distance to the
    query, [checkExposureRisk] returns the number of records that are both
    inside the window ([now - recordedAt <= threshold], the bound included)
    and within the radius, and [exposed] tells whether that number is
    positive. *)
Theorem checkExposureRisk_counts (env : Env) (st : State) (loc : string)
  (_timeThreshold : Z) :
  block_timestamp env <= max_uint256 ->
  Z.of_nat (List.length (infectedIndividuals st)) <= max_uint256 ->
  forallb (recordedBy (block_timestamp env)) (infectedIndividuals st) = true ->
  forallb (measurable (block_timestamp env) _timeThreshold loc)
          (infectedIndividuals st) = true ->
  checkExposureRisk env st loc _timeThreshold
  = Ok (0 <? exposures (block_timestamp env) _timeThreshold (outbreakRadius st)
                       loc (infectedIndividuals st),
        exposures (block_timestamp env) _timeThreshold (outbreakRadius st)
                  loc (infectedIndividuals st)).
Proof.
  intros Hnow Hlen Hpast Hmeas. unfold checkExposureRisk.
  rewrite exposureLoop_counts by (assumption || lia). reflexivity.
Qed.

Lemma checkExposureRisk_counts_example :
  checkExposureRisk (mkEnv 8 400) afterSecondReport "10.000001,20.000001" 150
  = Ok (true, 1).
Proof.
  apply (checkExposureRisk_counts (mkEnv 8 400) afterSecondReport
           "10.000001,20.000001" 150);
    first [reflexivity | vm_compute; discriminate].
Defined.

(** The bound of the window is included, and a record older than the
    threshold is left out. *)
Example checkExposureRisk_boundary :
  checkExposureRisk (mkEnv 8 400) afterSecondReport "10.000001,20.000001" 100
  = Ok (true, 1)
  /\ checkExposureRisk (mkEnv 8 400) afterSecondReport "10.000001,20.000001" 99
     = Ok (false, 0)
  /\ checkExposureRisk (mkEnv 8 400) afterSecondReport "10.000001,20.000001" 200
     = Ok (true, 2).
Proof. repeat split; vm_compute; reflexivity. Qed.

(** ** What a positive report does *)

Lemma atLocation_eq (loc : string) (o : OutbreakLocation) :
  atLocation loc o = true <-> location o = loc.
Proof. unfold atLocation, compareLocations. apply String.eqb_eq. Qed.

Lemma known_In (loc : string) (locs : list OutbreakLocation) :
  known loc locs = true <-> In loc (map location locs).
Proof.
  unfold known. rewrite existsb_exists, in_map_iff. split.
  - intros (o & Ho & Hat). exists o. split; [now apply atLocation_eq|assumption].
  - intros (o & Hat & Ho). exists o. split; [assumption|now apply atLocation_eq].
Qed.

Lemma bump_unknown (now : Z) (loc : string) (locs : list OutbreakLocation) :
  known loc locs = false ->
  map (bump now loc) locs = locs /\ filter (atLocation loc) locs = [].
Proof.
  unfold known. induction locs as [|o rest IH]; simpl; [auto|].
  intros H. apply orb_false_elim in H as [Ho Hrest].
  destruct (IH Hrest) as [Hmap Hfilter].
  unfold bump at 1. rewrite Ho, Hmap, Hfilter. auto.
Qed.

Lemma bumpExisting_spec (now : Z) (loc : string) (locs : list OutbreakLocation) :
  NoDup (map location locs) ->
  forall locs' locationExists events,
    bumpExisting now loc locs = Ok (locs', locationExists, events) ->
    locs' = map (bump now loc) locs
    /\ locationExists = known loc locs
    /\ events = grownEvents now loc locs.
Proof.
  unfold grownEvents.
  induction locs as [|o rest IH]; simpl; intros Hnodup locs' ex evs H.
  - inversion H. auto.
  - inversion Hnodup as [|l ls Hnotin Hrest]. subst.
    fold (atLocation loc o) in *. unfold bump at 1. unfold known. simpl.
    destruct (atLocation loc o) eqn:A.
    + unfold addU, uint256 in H.
      destruct ((0 <=? infectedCount o + 1) && (infectedCount o + 1 <=? max_uint256));
        cbn [bind] in H; inversion H. subst. clear H.
      apply atLocation_eq in A.
      assert (Hunknown : known loc rest = false).
      { destruct (known loc rest) eqn:K; [|reflexivity].
        apply known_In in K. rewrite A in Hnotin. contradiction. }
      destruct (bump_unknown now loc rest Hunknown) as [-> ->]. auto.
    + destruct (bumpExisting now loc rest) as [[[r x] v]|]; cbn [bind] in H;
        inversion H. subst. clear H.
      destruct (IH Hrest r ex evs eq_refl) as (-> & -> & ->). auto.
Qed.

Lemma mergeLoop_exact (now radius : Z) (loc : string) (locs : list OutbreakLocation) :
  forall events, mergeLoop now radius loc locs = Ok events ->
                 events = nearbyEvents now radius loc locs.
Proof.
  unfold nearbyEvents.
  induction locs as [|o rest IH]; simpl; intros evs H; [now inversion H|].
  unfold nearTo at 1, elsewhere.
  destruct (compareLocations (location o) loc); simpl; [now apply IH|].
  unfold isWithinRadius in H.
  destruct (calculateDistance (location o) loc) as [d|]; cbn [bind] in H;
    [|discriminate].
  destruct (mergeLoop now radius loc rest) as [evs'|]; cbn [bind] in H;
    [|discriminate].
  inversion H. rewrite (IH evs' eq_refl).
  destruct (d <=? radius); reflexivity.
Qed.

Lemma nearTo_bump (now now' radius : Z) (loc : string) (locs : list OutbreakLocation) :
  nearbyEvents now' radius loc (map (bump now loc) locs)
  = nearbyEvents now' radius loc locs.
Proof.
  unfold nearbyEvents. induction locs as [|o rest IH]; simpl; [reflexivity|].
  destruct (atLocation loc o) eqn:A.
  - assert (Hb : bump now loc o
                 = mkOutbreakLocation (location o) (infectedCount o + 1) now)
      by (unfold bump; now rewrite A).
    assert (H1 : nearTo loc radius
                   (mkOutbreakLocation (location o) (infectedCount o + 1) now) = false)
      by (unfold nearTo, elsewhere; cbn [location]; unfold atLocation in A;
          rewrite A; reflexivity).
    assert (H2 : nearTo loc radius o = false)
      by (unfold nearTo, elsewhere; unfold atLocation in A; rewrite A; reflexivity).
    rewrite Hb, H1, H2. exact IH.
  - assert (Hb : bump now loc o = o) by (unfold bump; now rewrite A).
    rewrite Hb. destruct (nearTo loc radius o); simpl; now rewrite IH.
Qed.

(** A positive report that returns: the state it leaves and the events it
    emits. *)
Lemma reportInfection_success (env : Env) (who : address) (loc : string)
  (st st' : State) (events : list Event) :
  distinctLocations st ->
  reportInfection env who loc true st = Ok (st', events) ->
  st' = mkState (owner st) (outbreakRadius st)
          (infectedIndividuals st
           ++ [mkInfectedIndividual who loc true (block_timestamp env)])
          (if known loc (outbreakLocations st)
           then map (bump (block_timestamp env) loc) (outbreakLocations st)
           else outbreakLocations st
                ++ [mkOutbreakLocation loc 1 (block_timestamp env)])
  /\ events
     = (if known loc (outbreakLocations st)
        then grownEvents (block_timestamp env) loc (outbreakLocations st)
        else [NewInfection who loc (block_timestamp env)])
       ++ nearbyEvents (block_timestamp env) (outbreakRadius st) loc
                       (outbreakLocations st).
Proof.
  intros Hdistinct. unfold reportInfection.
  pose proof (bumpExisting_spec (block_timestamp env) loc (outbreakLocations st)
                Hdistinct) as Hspec.
  destruct (bumpExisting _ loc (outbreakLocations st))
    as [[[locs locationExists] grown]|]; cbn [bind]; [|discriminate].
  destruct (Hspec _ _ _ eq_refl) as (-> & -> & ->). clear Hspec.
  unfold checkAndMergeOutbreaks.
  destruct (known loc (outbreakLocations st)) eqn:K; simpl negb; cbv iota;
    cbn [outbreakLocations outbreakRadius].
  - destruct (mergeLoop _ _ loc _) as [nearby|] eqn:M; cbn [bind]; [|discriminate].
    apply mergeLoop_exact in M. rewrite nearTo_bump in M. subst nearby.
    intros H. inversion H. split; reflexivity.
  - destruct (bump_unknown (block_timestamp env) loc _ K) as [Hmap Hfilter].
    rewrite Hmap.
    destruct (mergeLoop _ _ loc _) as [nearby|] eqn:M; cbn [bind]; [|discriminate].
    apply mergeLoop_exact in M. subst nearby.
    intros H. inversion H. split; [reflexivity|].
    unfold grownEvents. rewrite Hfilter. simpl. f_equal.
    unfold nearbyEvents. rewrite filter_app. simpl.
    assert (Hnew : nearTo loc (outbreakRadius st)
                     (mkOutbreakLocation loc 1 (block_timestamp env)) = false)
      by (unfold nearTo, elsewhere, compareLocations; cbn [location];
          rewrite String.eqb_refl; reflexivity).
    rewrite Hnew. now rewrite app_nil_r.
Qed.

(** X10: a positive report that returns leaves the owner and the radius
    alone, appends one record to the ledger, and either adds one to the
    count of the entry at the reported string, refreshing its time, or
    appends a new entry with count 1; no other entry changes.  It emits
    first the growth of that entry with its new count, or the new
    infection, then one potential outbreak at the reported location for
    every entry at another string within the radius, with the count of
    that entry. *)
Theorem reportInfection_effect (env : Env) (who : address) (loc : string)
  (st st' : State) (events : list Event) :
  distinctLocations st ->
  execute env (ReportInfection who loc true) st = Ok (st', events) ->
  owner st' = owner st
  /\ outbreakRadius st' = outbreakRadius st
  /\ infectedIndividuals st'
     = infectedIndividuals st
       ++ [mkInfectedIndividual who loc true (block_timestamp env)]
  /\ outbreakLocations st'
     = (if known loc (outbreakLocations st)
        then map (bump (block_timestamp env) loc) (outbreakLocations st)
        else outbreakLocations st
             ++ [mkOutbreakLocation loc 1 (block_timestamp env)])
  /\ events
     = (if known loc (outbreakLocations st)
        then grownEvents (block_timestamp env) loc (outbreakLocations st)
        else [NewInfection who loc (block_timestamp env)])
       ++ nearbyEvents (block_timestamp env) (outbreakRadius st) loc
                       (outbreakLocations st).
Proof.
  intros Hdistinct H. simpl in H.
  destruct (reportInfection_success env who loc st st' events Hdistinct H)
    as [-> ->].
  repeat split.
Qed.

Lemma reportInfection_effect_example :
  owner afterSecondReport = owner firstReported
  /\ outbreakRadius afterSecondReport = outbreakRadius firstReported
  /\ infectedIndividuals afterSecondReport
     = infectedIndividuals firstReported
       ++ [mkInfectedIndividual 9 "10.000000,20.000000" true
             (block_timestamp (mkEnv 8 300))]
  /\ outbreakLocations afterSecondReport
     = (if known "10.000000,20.000000" (outbreakLocations firstReported)
        then map (bump (block_timestamp (mkEnv 8 300)) "10.000000,20.000000")
                 (outbreakLocations firstReported)
        else outbreakLocations firstReported
             ++ [mkOutbreakLocation "10.000000,20.000000" 1
                   (block_timestamp (mkEnv 8 300))])
  /\ [PotentialOutbreak "10.000000,20.000000" 2 300]
     = (if known "10.000000,20.000000" (outbreakLocations firstReported)
        then grownEvents (block_timestamp (mkEnv 8 300)) "10.000000,20.000000"
                         (outbreakLocations firstReported)
        else [NewInfection 9 "10.000000,20.000000" (block_timestamp (mkEnv 8 300))])
       ++ nearbyEvents (block_timestamp (mkEnv 8 300)) (outbreakRadius firstReported)
                       "10.000000,20.000000" (outbreakLocations firstReported).
Proof.
  apply (reportInfection_effect (mkEnv 8 300) 9 "10.000000,20.000000"
           firstReported afterSecondReport
           [PotentialOutbreak "10.000000,20.000000" 2 300]).
  - unfold distinctLocations. vm_compute. repeat constructor. intros [].
  - reflexivity.
Defined.

(** ** What the calls leave alone *)

(** A call that returns and is no positive report keeps the ledger and the
    entries; only a call of the owner to [setOutbreakRadius] changes the
    radius; no call changes the owner. *)
Lemma execute_frame (env : Env) (call : Call) (st st' : State) (events : list Event) :
  execute env call st = Ok (st', events) ->
  owner st' = owner st
  /\ ((forall a l, call <> ReportInfection a l true) ->
      infectedIndividuals st' = infectedIndividuals st
      /\ outbreakLocations st' = outbreakLocations st)
  /\ ((forall r, call <> SetOutbreakRadius r) ->
      outbreakRadius st' = outbreakRadius st)
  /\ (forall r, call = SetOutbreakRadius r ->
                msg_sender env = owner st /\ outbreakRadius st' = r).
Proof.
  assert (Hsame : forall call',
             (forall r, call' <> SetOutbreakRadius r) ->
             owner st = owner st
             /\ ((forall a l, call' <> ReportInfection a l true) ->
                 infectedIndividuals st = infectedIndividuals st
                 /\ outbreakLocations st = outbreakLocations st)
             /\ ((forall r, call' <> SetOutbreakRadius r) ->
                 outbreakRadius st = outbreakRadius st)
             /\ (forall r, call' = SetOutbreakRadius r ->
                           msg_sender env = owner st /\ outbreakRadius st = r)).
  { intros call' Hno. split; [reflexivity|]. split; [intros _; split; reflexivity|].
    split; [intros _; reflexivity|]. intros r Hr. exfalso. exact (Hno r Hr). }
  destruct call; simpl.
  - unfold reportInfection. destruct _testResult.
    + destruct (bumpExisting _ _ _) as [[[locs ex] grown]|]; cbn [bind];
        [|discriminate].
      destruct (negb ex);
        (destruct (checkAndMergeOutbreaks _ _ _); cbn [bind]; [|discriminate]);
        intros H; inversion H; subst; simpl;
        (split; [reflexivity|];
         split; [intros Hno; exfalso; eapply Hno; reflexivity|];
         split; [intros _; reflexivity|]; intros r0 Hr; discriminate).
    + intros H. inversion H. subst. apply Hsame. discriminate.
  - destruct (checkProximity st _newLocation); cbn [bind]; intros H; inversion H.
    subst. apply Hsame. discriminate.
  - unfold reportNewLocation.
    destruct (checkProximity st _location) as [[[[found l] c] d]|]; cbn [bind];
      [|discriminate].
    destruct found; intros H; inversion H; subst; apply Hsame; discriminate.
  - unfold setOutbreakRadius, require.
    destruct (Z.eqb_spec (msg_sender env) (owner st)) as [Hown|_]; cbn [bind];
      [|discriminate].
    intros H. inversion H. subst. simpl.
    split; [reflexivity|]. split; [intros _; split; reflexivity|].
    split; [intros Hno; exfalso; eapply Hno; reflexivity|].
    intros r Hr. inversion Hr. subst. split; [assumption|reflexivity].
  - intros H. inversion H. subst. apply Hsame. discriminate.
  - intros H. inversion H. subst. apply Hsame. discriminate.
  - intros H. inversion H. subst. apply Hsame. discriminate.
  - destruct (checkExposureRisk env st _userLocation _timeThreshold); cbn [bind];
      intros H; inversion H.
    subst. apply Hsame. discriminate.
Qed.

(** X11: no transaction changes the owner; the radius changes only by a
    call of the owner to [setOutbreakRadius], which sets it to its
    argument, and a call to it from anyone else reverts with "Not
    authorized"; the ledger and the entries change only by a positive
    [reportInfection]. *)
Theorem transact_frame (env : Env) (call : Call) (st : State) :
  owner (fst (transact env call st)) = owner st
  /\ (outbreakRadius (fst (transact env call st)) <> outbreakRadius st ->
      msg_sender env = owner st
      /\ call = SetOutbreakRadius (outbreakRadius (fst (transact env call st))))
  /\ (infectedIndividuals (fst (transact env call st)) <> infectedIndividuals st
      \/ outbreakLocations (fst (transact env call st)) <> outbreakLocations st ->
      exists a l, call = ReportInfection a l true)
  /\ (forall r, msg_sender env <> owner st ->
                execute env (SetOutbreakRadius r) st = Err (Revert "Not authorized")).
Proof.
  unfold transact.
  pose proof (execute_frame env call st) as Hframe.
  destruct (execute env call st) as [[st' events]|e]; simpl.
  - destruct (Hframe st' events eq_refl) as (Hown & Hreg & Hrad & Hset).
    split; [exact Hown|split; [|split]].
    + intros Hchanged.
      destruct call; try (exfalso; apply Hchanged, Hrad; discriminate).
      destruct (Hset _newRadius eq_refl) as [Hsender ->]. auto.
    + intros Hchanged.
      destruct call as [a l [|]| | | | | | |];
        try (exfalso; destruct Hreg as [Hl He]; [discriminate|];
             destruct Hchanged as [Hc|Hc]; apply Hc; assumption).
      now exists a, l.
    + intros r Hne. simpl. unfold setOutbreakRadius, require.
      destruct (Z.eqb_spec (msg_sender env) (owner st)); [contradiction|reflexivity].
  - split; [reflexivity|split; [|split]].
    + intros H. contradiction.
    + intros [H|H]; contradiction.
    + intros r Hne. simpl. unfold setOutbreakRadius, require.
      destruct (Z.eqb_spec (msg_sender env) (owner st)); [contradiction|reflexivity].
Qed.

(** ** The registry and the ledger agree *)

Lemma recordsAt_app (loc : string) (ledger : list InfectedIndividual)
  (p : InfectedIndividual) :
  recordsAt loc (ledger ++ [p])
  = recordsAt loc ledger + (if String.eqb (individualLocation p) loc then 1 else 0).
Proof.
  unfold recordsAt. rewrite filter_app, length_app. simpl.
  destruct (String.eqb (individualLocation p) loc); simpl; lia.
Qed.

Lemma totalCount_app (locs : list OutbreakLocation) (o : OutbreakLocation) :
  totalCount (locs ++ [o]) = totalCount locs + infectedCount o.
Proof.
  unfold totalCount. induction locs as [|a locs IH]; simpl; [lia|].
  rewrite IH. lia.
Qed.

Lemma totalCount_bump (now : Z) (loc : string) (locs : list OutbreakLocation) :
  NoDup (map location locs) -> known loc locs = true ->
  totalCount (map (bump now loc) locs) = totalCount locs + 1.
Proof.
  induction locs as [|o rest IH]; simpl; intros Hnodup Hknown; [discriminate|].
  inversion Hnodup as [|l ls Hnotin Hrest]. subst.
  unfold known in Hknown. simpl in Hknown. unfold bump at 1.
  destruct (atLocation loc o) eqn:A.
  - apply atLocation_eq in A.
    assert (Hunknown : known loc rest = false).
    { destruct (known loc rest) eqn:K; [|reflexivity].
      apply known_In in K. rewrite A in Hnotin. contradiction. }
    destruct (bump_unknown now loc rest Hunknown) as [-> _]. simpl. lia.
  - simpl in Hknown. rewrite (IH Hrest Hknown). lia.
Qed.

Lemma recordsAt_unknown (loc : string) (ledger : list InfectedIndividual)
  (locs : list OutbreakLocation) :
  (forall p, In p ledger -> In (individualLocation p) (map location locs)) ->
  known loc locs = false ->
  recordsAt loc ledger = 0.
Proof.
  intros Hledger K. unfold recordsAt.
  induction ledger as [|p ps IH]; [reflexivity|].
  simpl. destruct (String.eqb_spec (individualLocation p) loc) as [E|_].
  - exfalso. pose proof (Hledger p (or_introl eq_refl)) as Hin.
    rewrite E in Hin. apply known_In in Hin. congruence.
  - apply IH. intros q Hq. apply Hledger. now right.
Qed.

Lemma consistent_report (env : Env) (who : address) (loc : string)
  (st st' : State) (events : list Event) :
  distinctLocations st -> consistent st ->
  reportInfection env who loc true st = Ok (st', events) ->
  consistent st'.
Proof.
  intros Hdistinct (Hcounts & Hledger & Htotal) H.
  destruct (reportInfection_success env who loc st st' events Hdistinct H)
    as [-> _]. clear H.
  unfold consistent, getInfectedCount in *. simpl.
  rewrite Forall_forall in Hcounts, Hledger.
  assert (Hkeep : forall o, atLocation loc o = false ->
                            recordsAt (location o)
                              (infectedIndividuals st
                               ++ [mkInfectedIndividual who loc true
                                     (block_timestamp env)])
                            = recordsAt (location o) (infectedIndividuals st)).
  { intros o A. rewrite recordsAt_app. simpl.
    unfold atLocation, compareLocations in A.
    rewrite String.eqb_sym, A. lia. }
  destruct (known loc (outbreakLocations st)) eqn:K.
  - split; [|split].
    + apply Forall_forall. intros o' Ho'. apply in_map_iff in Ho' as (o & <- & Ho).
      unfold bump. destruct (atLocation loc o) eqn:A.
      * simpl. rewrite recordsAt_app. simpl.
        apply atLocation_eq in A. rewrite A, String.eqb_refl.
        rewrite (Hcounts o Ho), A. reflexivity.
      * rewrite (Hkeep o A). now apply Hcounts.
    + apply Forall_forall. intros p Hp. apply in_app_or in Hp as [Hp|[<-|[]]].
      * destruct (Hledger p Hp) as [Ht Hin]. split; [assumption|].
        rewrite map_map.
        replace (map (fun o => location (bump (block_timestamp env) loc o))
                     (outbreakLocations st))
          with (map location (outbreakLocations st)); [assumption|].
        apply map_ext. intros o. unfold bump. now destruct (atLocation loc o).
      * simpl. split; [reflexivity|].
        rewrite map_map.
        replace (map (fun o => location (bump (block_timestamp env) loc o))
                     (outbreakLocations st))
          with (map location (outbreakLocations st));
          [now apply known_In|].
        apply map_ext. intros o. unfold bump. now destruct (atLocation loc o).
    + rewrite totalCount_bump by assumption.
      rewrite length_app. simpl. lia.
  - assert (Hnone : recordsAt loc (infectedIndividuals st) = 0).
    { apply (recordsAt_unknown loc (infectedIndividuals st) (outbreakLocations st));
        [|assumption].
      intros p Hp. now apply Hledger. }
    split; [|split].
    + apply Forall_forall. intros o Ho. apply in_app_or in Ho as [Ho|[<-|[]]].
      * assert (A : atLocation loc o = false).
        { destruct (atLocation loc o) eqn:A; [|reflexivity].
          apply atLocation_eq in A. exfalso.
          assert (Hin : In loc (map location (outbreakLocations st)))
            by (rewrite <- A; now apply in_map).
          apply known_In in Hin. congruence. }
        rewrite (Hkeep o A). now apply Hcounts.
      * simpl. rewrite recordsAt_app. simpl. rewrite String.eqb_refl, Hnone.
        reflexivity.
    + apply Forall_forall. intros p Hp. rewrite map_app.
      apply in_app_or in Hp as [Hp|[<-|[]]].
      * destruct (Hledger p Hp) as [Ht Hin]. split; [assumption|].
        apply in_or_app. now left.
      * simpl. split; [reflexivity|]. apply in_or_app. right. now left.
    + rewrite totalCount_app, length_app. simpl. lia.
Qed.

Lemma reachable_consistent_aux (st : State) : reachable st -> consistent st.
Proof.
  induction 1 as [env r|env call st Hreach IH].
  - repeat split; constructor.
  - unfold transact.
    pose proof (execute_frame env call st) as Hframe.
    destruct (execute env call st) as [[st' events]|e] eqn:E; simpl; [|exact IH].
    destruct call as [a l [|]| | | | | | |];
      try (destruct (Hframe st' events eq_refl) as (_ & Hreg & _);
           destruct Hreg as [Hl He]; [discriminate|];
           destruct IH as (H1 & H2 & H3);
           unfold consistent, getInfectedCount in *; rewrite Hl, He;
           repeat split; assumption).
    simpl in E.
    apply (consistent_report env a l st st' events); try assumption.
    now apply reachable_distinctLocations.
Qed.

(** X12: in every state of a deployed contract the registry agrees with
    the ledger: the count of every entry is the number of ledger records
    at its location string, every ledger record is a positive one whose
    location string has an entry, and the counts of the entries add up to
    the length of the ledger. *)
Theorem reachable_consistent (st : State) : reachable st -> consistent st.
Proof. apply reachable_consistent_aux. Qed.

Lemma reachable_consistent_example : consistent afterSecondReport.
Proof.
  apply (reachable_consistent afterSecondReport).
  apply reachable_transact, reachable_transact, reachable_constructor.
Defined.

(** ** A report, then a query at the same place *)

Lemma proximityLoop_distances (q : string) (radius : Z)
  (locs : list OutbreakLocation) :
  forall i c c', proximityLoop q radius locs i c = Ok c' ->
                 exists ds, Forall2 (fun o d => calculateDistance q (location o) = Ok d)
                                    locs ds.
Proof.
  induction locs as [|o rest IH]; intros i c c' H.
  - exists []. constructor.
  - simpl in H. unfold isWithinRadius in H.
    destruct (calculateDistance q (location o)) as [d|] eqn:D; cbn [bind] in H;
      [|discriminate].
    destruct ((d <=? radius) && (d <? closestDistance c));
      apply IH in H as [ds Hds]; exists (d :: ds); now constructor.
Qed.

Lemma Forall2_nth_error_left {A B} (R : A -> B -> Prop) (l1 : list A) (l2 : list B) :
  Forall2 R l1 l2 ->
  forall j a, nth_error l1 j = Some a ->
              exists b, nth_error l2 j = Some b /\ R a b.
Proof.
  induction 1 as [|a' b l1 l2 Hab _ IH]; intros [|j] a Hj; simpl in *;
    try discriminate.
  - inversion Hj. subst. now exists b.
  - now apply IH.
Qed.

(** X13: after a positive report at [loc] that returns, a proximity query
    at [loc] itself, if it returns, finds an entry, at distance 0. *)
Theorem checkProximity_after_report (env : Env) (who : address) (loc : string)
  (st st' : State) (events : list Event) :
  distinctLocations st ->
  0 <= outbreakRadius st ->
  execute env (ReportInfection who loc true) st = Ok (st', events) ->
  is_ok (checkProximity st' loc) = true ->
  exists matched count, checkProximity st' loc = Ok (true, matched, count, 0).
Proof.
  intros Hdistinct Hradius Hreport Hquery. simpl in Hreport.
  destruct (reportInfection_success env who loc st st' events Hdistinct Hreport)
    as [Hst' _].
  assert (Hentry : In loc (map location (outbreakLocations st'))).
  { rewrite Hst'. simpl. destruct (known loc (outbreakLocations st)) eqn:K.
    - rewrite map_map.
      replace (map (fun o => location (bump (block_timestamp env) loc o))
                   (outbreakLocations st))
        with (map location (outbreakLocations st)); [now apply known_In|].
      apply map_ext. intros o. unfold bump. now destruct (atLocation loc o).
    - rewrite map_app. apply in_or_app. right. now left. }
  assert (Hrad' : outbreakRadius st' = outbreakRadius st) by now rewrite Hst'.
  unfold checkProximity in *. rewrite Hrad' in *.
  destruct (proximityLoop loc (outbreakRadius st) (outbreakLocations st') 0 _)
    as [c|] eqn:P; cbn [bind] in *; [|discriminate].
  destruct (proximityLoop_distances _ _ _ _ _ _ P) as [ds Hds].
  assert (Hc : closestOf (outbreakRadius st) ds 0 (mkClosest max_uint256 0 false) = c)
    by (rewrite (proximityLoop_closestOf loc _ _ ds Hds) in P; congruence).
  clear P.
  assert (Hsmall : forall d, In d ds -> d < max_uint256).
  { intros d Hd. apply In_nth_error in Hd as [j Hj].
    destruct (Forall2_nth_error_right _ _ _ Hds j d Hj) as (o & _ & Ho).
    apply calculateDistance_range in Ho.
    unfold max_int256, max_uint256 in *. lia. }
  assert (Hinit : bestSoFar (outbreakRadius st) [] (mkClosest max_uint256 0 false)).
  { split; [reflexivity|]. intros [|j] d Hj; discriminate. }
  pose proof (closestOf_best (outbreakRadius st) ds Hsmall [] _ Hinit) as Hbest.
  simpl in Hbest. rewrite Hc in Hbest. unfold bestSoFar in Hbest.
  apply in_map_iff in Hentry as (o & Hloc & Ho).
  apply In_nth_error in Ho as [j Hj].
  destruct (Forall2_nth_error_left _ _ _ Hds j o Hj) as (d0 & Hd0 & Hself).
  rewrite Hloc in Hself. apply calculateDistance_self_zero in Hself. subst d0.
  destruct (foundInRadius c).
  - destruct Hbest as (Hnth & _ & Hmin).
    destruct (Hmin j 0 Hd0 Hradius) as [Hle _].
    destruct (Forall2_nth_error_right _ _ _ Hds _ _ Hnth) as (o' & Ho' & Hd').
    apply calculateDistance_range in Hd'.
    cbv iota. rewrite Ho'. exists (location o'), (infectedCount o').
    replace (closestDistance c) with 0 by lia. reflexivity.
  - destruct Hbest as [_ Hnone]. specialize (Hnone j 0 Hd0). lia.
Qed.

Lemma checkProximity_after_report_example :
  exists matched count,
    checkProximity afterSecondReport "10.000000,20.000000"
    = Ok (true, matched, count, 0).
Proof.
  apply (checkProximity_after_report (mkEnv 8 300) 9 "10.000000,20.000000"
           firstReported afterSecondReport
           [PotentialOutbreak "10.000000,20.000000" 2 300]).
  - unfold distinctLocations. vm_compute. repeat constructor. intros [].
  - vm_compute. discriminate.
  - reflexivity.
  - vm_compute. reflexivity.
Defined.

(** ** The listing of a deployed contract *)

Lemma reachable_counts_positive (st : State) :
  reachable st -> Forall (fun o => 1 <= infectedCount o) (outbreakLocations st).
Proof.
  induction 1 as [env r|env call st Hreach IH]; [constructor|].
  unfold transact.
  pose proof (execute_frame env call st) as Hframe.
  destruct (execute env call st) as [[st' events]|e] eqn:E; simpl; [|exact IH].
  destruct call as [a l [|]| | | | | | |];
    try (destruct (Hframe st' events eq_refl) as (_ & Hreg & _);
         destruct Hreg as [_ He]; [discriminate|]; now rewrite He).
  simpl in E.
  destruct (reportInfection_success env a l st st' events
              (reachable_distinctLocations st Hreach) E) as [-> _].
  simpl. rewrite Forall_forall in *.
  destruct (known l (outbreakLocations st)).
  - intros o' Ho'. apply in_map_iff in Ho' as (o & <- & Ho).
    specialize (IH o Ho). unfold bump. destruct (atLocation l o); simpl; lia.
  - intros o Ho. apply in_app_or in Ho as [Ho|[<-|[]]]; [now apply IH|simpl; lia].
Qed.

Lemma totalCount_fold (locs : list OutbreakLocation) :
  fold_right Z.add 0 (map infectedCount locs) = totalCount locs.
Proof. unfold totalCount. induction locs as [|o locs IH]; simpl; congruence. Qed.

(** X14: in every state of a deployed contract [getAllOutbreakLocations]
    returns two arrays of the length that [getOutbreakLocationsCount]
    gives; the location strings are pairwise distinct, in the order of
    the entries, every count is at least 1, and the counts add up to
    [getInfectedCount]. *)
Theorem getAllOutbreakLocations_reachable (st : State) :
  reachable st ->
  List.length (fst (getAllOutbreakLocations st))
  = List.length (snd (getAllOutbreakLocations st))
  /\ Z.of_nat (List.length (fst (getAllOutbreakLocations st)))
     = getOutbreakLocationsCount st
  /\ (forall i o, nth_error (outbreakLocations st) i = Some o ->
                  nth_error (fst (getAllOutbreakLocations st)) i = Some (location o)
                  /\ nth_error (snd (getAllOutbreakLocations st)) i
                     = Some (infectedCount o))
  /\ NoDup (fst (getAllOutbreakLocations st))
  /\ Forall (fun c => 1 <= c) (snd (getAllOutbreakLocations st))
  /\ fold_right Z.add 0 (snd (getAllOutbreakLocations st)) = getInfectedCount st.
Proof.
  intros Hreach. unfold getAllOutbreakLocations, getOutbreakLocationsCount. simpl.
  rewrite !length_map. repeat split.
  - now apply map_nth_error.
  - now apply map_nth_error.
  - now apply reachable_distinctLocations.
  - apply Forall_map. now apply reachable_counts_positive.
  - rewrite totalCount_fold. now apply reachable_consistent_aux.
Qed.

Lemma getAllOutbreakLocations_reachable_example :
  List.length (fst (getAllOutbreakLocations afterSecondReport))
  = List.length (snd (getAllOutbreakLocations afterSecondReport))
  /\ Z.of_nat (List.length (fst (getAllOutbreakLocations afterSecondReport)))
     = getOutbreakLocationsCount afterSecondReport
  /\ (forall i o, nth_error (outbreakLocations afterSecondReport) i = Some o ->
                  nth_error (fst (getAllOutbreakLocations afterSecondReport)) i
                  = Some (location o)
                  /\ nth_error (snd (getAllOutbreakLocations afterSecondReport)) i
                     = Some (infectedCount o))
  /\ NoDup (fst (getAllOutbreakLocations afterSecondReport))
  /\ Forall (fun c => 1 <= c) (snd (getAllOutbreakLocations afterSecondReport))
  /\ fold_right Z.add 0 (snd (getAllOutbreakLocations afterSecondReport))
     = getInfectedCount afterSecondReport.
Proof.
  apply (getAllOutbreakLocations_reachable afterSecondReport).
  apply reachable_transact, reachable_transact, reachable_constructor.
Defined.

(** ** A larger radius *)

Lemma bestSoFar_unique (radius radius' : Z) (ds : list Z) (c c' : Closest) :
  radius <= radius' ->
  bestSoFar radius ds c -> bestSoFar radius' ds c' ->
  foundInRadius c = true ->
  foundInRadius c' = true
  /\ closestIndex c' = closestIndex c
  /\ closestDistance c' = closestDistance c.
Proof.
  intros Hle Hc Hc' Hfound. unfold bestSoFar in *. rewrite Hfound in Hc.
  destruct Hc as (Hnth & Hrad & Hmin).
  destruct (foundInRadius c').
  - destruct Hc' as (Hnth' & Hrad' & Hmin').
    destruct (Hmin' _ _ Hnth ltac:(lia)) as [Hle1 Htie1].
    destruct (Hmin _ _ Hnth' ltac:(lia)) as [Hle2 Htie2].
    assert (Heq : closestDistance c' = closestDistance c) by lia.
    repeat split; [|assumption].
    specialize (Htie1 (eq_sym Heq)). specialize (Htie2 Heq). lia.
  - destruct Hc' as [_ Hnone]. specialize (Hnone _ _ Hnth). lia.
Qed.

(** X15: a match survives a larger radius: when [checkProximity] finds an
    entry and the owner then sets a radius that is not smaller,
    [checkProximity] returns the same entry, count and distance. *)
Theorem checkProximity_larger_radius (env : Env) (st : State) (q : string)
  (_newRadius : Z) (matched : string) (count distance : Z) :
  msg_sender env = owner st ->
  outbreakRadius st <= _newRadius ->
  checkProximity st q = Ok (true, matched, count, distance) ->
  checkProximity (fst (transact env (SetOutbreakRadius _newRadius) st)) q
  = Ok (true, matched, count, distance).
Proof.
  intros Hown Hle Hquery.
  assert (Hset : fst (transact env (SetOutbreakRadius _newRadius) st)
                 = mkState (owner st) _newRadius (infectedIndividuals st)
                           (outbreakLocations st)).
  { unfold transact. simpl. unfold setOutbreakRadius, require.
    rewrite Hown, Z.eqb_refl. reflexivity. }
  rewrite Hset. unfold checkProximity in *. simpl.
  destruct (proximityLoop q (outbreakRadius st) (outbreakLocations st) 0 _)
    as [c|] eqn:P; cbn [bind] in Hquery; [|discriminate].
  destruct (proximityLoop_distances _ _ _ _ _ _ P) as [ds Hds].
  rewrite (proximityLoop_closestOf q _ _ ds Hds) in P.
  rewrite (proximityLoop_closestOf q _ _ ds Hds). cbn [bind].
  assert (Hc : closestOf (outbreakRadius st) ds 0 (mkClosest max_uint256 0 false) = c)
    by congruence.
  clear P.
  assert (Hsmall : forall d, In d ds -> d < max_uint256).
  { intros d Hd. apply In_nth_error in Hd as [j Hj].
    destruct (Forall2_nth_error_right _ _ _ Hds j d Hj) as (o & _ & Ho).
    apply calculateDistance_range in Ho.
    unfold max_int256, max_uint256 in *. lia. }
  assert (Hinit : forall r, bestSoFar r [] (mkClosest max_uint256 0 false)).
  { intros r. split; [reflexivity|]. intros [|j] d Hj; discriminate. }
  pose proof (closestOf_best (outbreakRadius st) ds Hsmall [] _ (Hinit _)) as Hbest.
  pose proof (closestOf_best _newRadius ds Hsmall [] _ (Hinit _)) as Hbest'.
  simpl in Hbest, Hbest'. rewrite Hc in Hbest.
  set (c' := closestOf _newRadius ds 0 (mkClosest max_uint256 0 false)) in *.
  assert (Hfound : foundInRadius c = true).
  { destruct (foundInRadius c); [reflexivity|]. discriminate. }
  destruct (bestSoFar_unique _ _ ds c c' Hle Hbest Hbest' Hfound) as (Hf' & Hi' & Hd').
  rewrite Hfound in Hquery. rewrite Hf', Hi', Hd'. exact Hquery.
Qed.

Lemma checkProximity_larger_radius_example :
  checkProximity (fst (transact (mkEnv 7 400) (SetOutbreakRadius 6000)
                                afterSecondReport))
                 "10.000001,20.000001"
  = Ok (true, "10.000000,20.000000", 2, 0).
Proof.
  apply (checkProximity_larger_radius (mkEnv 7 400) afterSecondReport
           "10.000001,20.000001" 6000).
  - reflexivity.
  - vm_compute. discriminate.
  - vm_compute. reflexivity.
Defined.

(** ** Times *)

Lemma datedBy_reachable (t : Z) (st : State) : datedBy t st -> reachable st.
Proof.
  induction 1; [apply reachable_constructor|now apply reachable_transact].
Qed.

Lemma lastRecordTime_app (loc : string) (ledger : list InfectedIndividual)
  (p : InfectedIndividual) :
  lastRecordTime loc (ledger ++ [p])
  = if String.eqb (individualLocation p) loc
    then Some (individualTimestamp p)
    else lastRecordTime loc ledger.
Proof.
  unfold lastRecordTime. rewrite filter_app. simpl.
  destruct (String.eqb (individualLocation p) loc).
  - now rewrite rev_unit.
  - now rewrite app_nil_r.
Qed.

Lemma datedBy_times (t : Z) (st : State) :
  datedBy t st ->
  0 <= t
  /\ Forall (fun p => 0 <= individualTimestamp p <= t) (infectedIndividuals st)
  /\ Forall (fun o => lastRecordTime (location o) (infectedIndividuals st)
                      = Some (timestamp o))
            (outbreakLocations st).
Proof.
  induction 1 as [env r Henv|t env call st Hdated IH Hle].
  - repeat split; [assumption|constructor|constructor].
  - destruct IH as (Ht & Hledger & Hentries).
    assert (Hold : Forall (fun p => 0 <= individualTimestamp p <= block_timestamp env)
                          (infectedIndividuals st)).
    { rewrite Forall_forall in *. intros p Hp. specialize (Hledger p Hp). lia. }
    unfold transact.
    pose proof (execute_frame env call st) as Hframe.
    destruct (execute env call st) as [[st' events]|e] eqn:E; simpl;
      [|repeat split; (lia || assumption)].
    destruct call as [a l [|]| | | | | | |];
      try (destruct (Hframe st' events eq_refl) as (_ & Hreg & _);
           destruct Hreg as [Hl He]; [discriminate|];
           rewrite Hl, He; repeat split; (lia || assumption)).
    simpl in E.
    destruct (reportInfection_success env a l st st' events
                (reachable_distinctLocations st (datedBy_reachable t st Hdated)) E)
      as [-> _].
    simpl. split; [lia|split].
    + apply Forall_app. split; [assumption|]. repeat constructor; simpl; lia.
    + rewrite Forall_forall in *.
      destruct (known l (outbreakLocations st)) eqn:K.
      * intros o' Ho'. apply in_map_iff in Ho' as (o & <- & Ho).
        rewrite lastRecordTime_app. simpl. unfold bump.
        destruct (atLocation l o) eqn:A.
        -- simpl. apply atLocation_eq in A. now rewrite A, String.eqb_refl.
        -- unfold atLocation, compareLocations in A.
           rewrite String.eqb_sym, A. now apply Hentries.
      * intros o Ho. apply in_app_or in Ho as [Ho|[<-|[]]].
        -- rewrite lastRecordTime_app. simpl.
           destruct (String.eqb_spec l (location o)) as [El|_].
           ++ exfalso.
              assert (Hin : In l (map location (outbreakLocations st)))
                by (rewrite El; now apply in_map).
              apply known_In in Hin. congruence.
           ++ now apply Hentries.
        -- rewrite lastRecordTime_app. simpl. now rewrite String.eqb_refl.
Qed.

(** X16: when the blocks are dated in order from a time that is not
    negative, no ledger record is dated after the last block, so that the
    age of a record never underflows in a later exposure query; and the
    time of every entry is the time of the last ledger record at its
    location string. *)
Theorem datedBy_records (t : Z) (st : State) :
  datedBy t st ->
  (forall now, t <= now ->
               forallb (recordedBy now) (infectedIndividuals st) = true)
  /\ Forall (fun o => lastRecordTime (location o) (infectedIndividuals st)
                      = Some (timestamp o))
            (outbreakLocations st).
Proof.
  intros Hdated. destruct (datedBy_times t st Hdated) as (Ht & Hledger & Hentries).
  split; [|assumption].
  intros now Hnow. apply forallb_forall. intros p Hp.
  rewrite Forall_forall in Hledger. specialize (Hledger p Hp).
  unfold recordedBy. apply andb_true_intro. split; apply Z.leb_le; lia.
Qed.

Lemma datedBy_afterSecondReport : datedBy 300 afterSecondReport.
Proof.
  apply (dated_transact 200 (mkEnv 8 300)); [|simpl; lia].
  apply (dated_transact 100 (mkEnv 8 200)); [|simpl; lia].
  apply (dated_constructor (mkEnv 7 100)). simpl. lia.
Defined.

Lemma datedBy_records_example :
  (forall now, 300 <= now ->
               forallb (recordedBy now) (infectedIndividuals afterSecondReport) = true)
  /\ Forall (fun o => lastRecordTime (location o) (infectedIndividuals afterSecondReport)
                      = Some (timestamp o))
            (outbreakLocations afterSecondReport).
Proof.
  apply (datedBy_records 300 afterSecondReport). exact datedBy_afterSecondReport.
Defined.

(** ** A narrower window, a smaller radius *)

Lemma exposureLoop_narrower (currentTime : Z) (loc : string)
  (threshold threshold' radius radius' : Z)
  (individuals : list InfectedIndividual) :
  threshold' <= threshold -> radius' <= radius ->
  forall acc acc' r,
    0 <= snd acc' <= snd acc ->
    (fst acc' = true -> fst acc = true) ->
    exposureLoop currentTime loc threshold radius individuals acc = Ok r ->
    exists r',
      exposureLoop currentTime loc threshold' radius' individuals acc' = Ok r'
      /\ 0 <= snd r' <= snd r
      /\ (fst r' = true -> fst r = true).
Proof.
  intros Ht Hr.
  induction individuals as [|p rest IH]; intros acc acc' r Hacc Hfst H.
  - simpl in *. inversion H. subst. exists acc'. auto.
  - simpl in H |- *.
    destruct (subU currentTime (individualTimestamp p)) as [age|];
      cbn [bind] in *; [|discriminate].
    rewrite !Z.gtb_ltb in *.
    destruct (Z.ltb_spec threshold age) as [Hold|Hin].
    + destruct (Z.ltb_spec threshold' age); [|lia]. now apply (IH acc acc' r).
    + unfold isWithinRadius in *.
      destruct (calculateDistance loc (individualLocation p)) as [d|];
        cbn [bind] in *; [|discriminate].
      destruct (Z.leb_spec d radius) as [Hd|Hd].
      * unfold addU, uint256 in H.
        destruct (Z.leb_spec 0 (snd acc + 1)); [|discriminate].
        destruct (Z.leb_spec (snd acc + 1) max_uint256); [|discriminate].
        cbn [andb bind] in H.
        destruct (Z.ltb_spec threshold' age) as [Hold'|Hin'].
        -- apply (IH (true, snd acc + 1) acc' r); simpl; auto; lia.
        -- unfold addU, uint256.
           destruct (Z.leb_spec d radius') as [Hd'|Hd'].
           ++ destruct (Z.leb_spec 0 (snd acc' + 1)); [|lia].
              destruct (Z.leb_spec (snd acc' + 1) max_uint256); [|lia].
              cbn [andb bind].
              apply (IH (true, snd acc + 1) (true, snd acc' + 1) r); simpl; auto; lia.
           ++ apply (IH (true, snd acc + 1) acc' r); simpl; auto; lia.
      * destruct (Z.leb_spec d radius') as [Hd'|Hd']; [lia|].
        destruct (Z.ltb_spec threshold' age); now apply (IH acc acc' r).
Qed.

(** X17: an exposure query that returns also returns when it is asked
    with a smaller time threshold, or in a state with the same ledger and a
    smaller radius, and then it counts no more exposures and flags an
    exposure only if the wider query does. *)
Theorem checkExposureRisk_narrower (env : Env) (st st' : State) (loc : string)
  (_timeThreshold _timeThreshold' : Z) (exposed : bool) (exposureCount : Z) :
  infectedIndividuals st' = infectedIndividuals st ->
  outbreakRadius st' <= outbreakRadius st ->
  _timeThreshold' <= _timeThreshold ->
  checkExposureRisk env st loc _timeThreshold = Ok (exposed, exposureCount) ->
  exists exposed' exposureCount',
    checkExposureRisk env st' loc _timeThreshold' = Ok (exposed', exposureCount')
    /\ 0 <= exposureCount' <= exposureCount
    /\ (exposed' = true -> exposed = true).
Proof.
  intros Hledger Hradius Ht H. unfold checkExposureRisk in *. rewrite Hledger.
  destruct (exposureLoop_narrower _ loc _ _ _ _ (infectedIndividuals st) Ht Hradius
              (false, 0) (false, 0) _ ltac:(simpl; lia) ltac:(auto) H)
    as ([e c] & E & B & F).
  exists e, c. auto.
Qed.

Lemma checkExposureRisk_narrower_example :
  exists exposed' exposureCount',
    checkExposureRisk (mkEnv 8 400) afterSecondReport "10.000001,20.000001" 100
    = Ok (exposed', exposureCount')
    /\ 0 <= exposureCount' <= 2
    /\ (exposed' = true -> true = true).
Proof.
  apply (checkExposureRisk_narrower (mkEnv 8 400) afterSecondReport afterSecondReport
           "10.000001,20.000001" 200 100 true 2);
    first [reflexivity | vm_compute; discriminate].
Defined.

(** ** Coordinates written with decimals *)






(** ** Calls that cannot revert *)

Lemma locatable_distance (loc1 loc2 : string) :
  locatable loc1 = true -> locatable loc2 = true ->
  exists d, calculateDistance loc1 loc2 = Ok d /\ 0 <= d <= 44756000.
Proof.
  unfold locatable, calculateDistance. intros H1 H2.
  destruct (parseCoordinate loc1) as [c1|]; [|discriminate].
  destruct (parseCoordinate loc2) as [c2|]; [|discriminate].
  cbn [bind].
  apply andb_prop in H1 as [H1a H1b]. apply andb_prop in H2 as [H2a H2b].
  apply Z.leb_le in H1a, H1b, H2a, H2b.
  apply distanceBetween_total; split; assumption.
Qed.

Lemma mergeLoop_locatable (now radius : Z) (loc : string)
  (locs : list OutbreakLocation) :
  locatable loc = true ->
  forallb (fun o => locatable (location o)) locs = true ->
  is_ok (mergeLoop now radius loc locs) = true.
Proof.
  intros Hloc. induction locs as [|o rest IH]; simpl; [reflexivity|].
  intros H. apply andb_prop in H as [Ho Hrest].
  destruct (compareLocations (location o) loc); [now apply IH|].
  unfold isWithinRadius.
  destruct (locatable_distance (location o) loc Ho Hloc) as (d & -> & _).
  cbn [bind]. specialize (IH Hrest).
  destruct (mergeLoop now radius loc rest); [reflexivity|discriminate].
Qed.

Lemma locatable_distances (q : string) (locs : list OutbreakLocation) :
  locatable q = true ->
  forallb (fun o => locatable (location o)) locs = true ->
  exists ds, Forall2 (fun o d => calculateDistance q (location o) = Ok d) locs ds
             /\ Forall (fun d => 0 <= d <= 44756000) ds.
Proof.
  intros Hq. induction locs as [|o rest IH]; simpl; intros H.
  - exists []. split; constructor.
  - apply andb_prop in H as [Ho Hrest].
    destruct (IH Hrest) as (ds & Hds & Hb).
    destruct (locatable_distance q (location o) Hq Ho) as (d & Hd & Hr).
    exists (d :: ds). split; constructor; assumption.
Qed.

Lemma checkProximity_measured (st : State) (q : string) (ds : list Z) :
  Forall2 (fun o d => calculateDistance q (location o) = Ok d)
          (outbreakLocations st) ds ->
  (checkProximity st q = Ok (false, "", 0, 0)
   \/ exists o d, In o (outbreakLocations st) /\ In d ds
                  /\ checkProximity st q = Ok (true, location o, infectedCount o, d)).
Proof.
  intros Hds. unfold checkProximity.
  rewrite (proximityLoop_closestOf q _ _ ds Hds). cbn [bind].
  assert (Hsmall : forall d, In d ds -> d < max_uint256).
  { intros d Hd. apply In_nth_error in Hd as [j Hj].
    destruct (Forall2_nth_error_right _ _ _ Hds j d Hj) as (o & _ & Ho).
    apply calculateDistance_range in Ho.
    unfold max_int256, max_uint256 in *. lia. }
  assert (Hinit : bestSoFar (outbreakRadius st) [] (mkClosest max_uint256 0 false)).
  { split; [reflexivity|]. intros [|j] d Hj; discriminate. }
  pose proof (closestOf_best (outbreakRadius st) ds Hsmall [] _ Hinit) as Hbest.
  simpl in Hbest. unfold bestSoFar in Hbest.
  destruct (foundInRadius (closestOf _ ds 0 _)); [|now left].
  destruct Hbest as (Hnth & _).
  destruct (Forall2_nth_error_right _ _ _ Hds _ _ Hnth) as (o & Ho & _).
  rewrite Ho. right. eexists; eexists. split; [|split; [|reflexivity]].
  - eapply nth_error_In; eassumption.
  - eapply nth_error_In; eassumption.
Qed.

(** X19: in a state whose entries all have a location that parses to a
    coordinate within 90 degrees of latitude and 180 of longitude and a
    count below the largest word, a call with such a location does not
    revert: a positive [reportInfection] returns and leaves a state whose
    entries all have such a location, [checkProximity] returns, with a
    distance of at most 44756000 metres, and [reportNewLocation] returns
    without changing the state. *)
Theorem locatable_calls_return (env : Env) (who : address) (loc : string)
  (st : State) :
  forallb (fun o => locatable (location o)) (outbreakLocations st) = true ->
  forallb roomy (outbreakLocations st) = true ->
  locatable loc = true ->
  (exists st' events,
      execute env (ReportInfection who loc true) st = Ok (st', events)
      /\ forallb (fun o => locatable (location o)) (outbreakLocations st') = true)
  /\ (exists found matched count distance,
         checkProximity st loc = Ok (found, matched, count, distance)
         /\ 0 <= distance <= 44756000)
  /\ (exists events, execute env (ReportNewLocation loc) st = Ok (st, events)).
Proof.
  intros Hlocs Hroomy Hloc.
  assert (Hprox : exists found matched count distance,
             checkProximity st loc = Ok (found, matched, count, distance)
             /\ 0 <= distance <= 44756000).
  { destruct (locatable_distances loc _ Hloc Hlocs) as (ds & Hds & Hb).
    destruct (checkProximity_measured st loc ds Hds) as [E|(o & d & _ & Hd & E)].
    - exists false, "", 0, 0. split; [exact E|lia].
    - exists true, (location o), (infectedCount o), d. split; [exact E|].
      rewrite Forall_forall in Hb. now apply Hb. }
  split; [|split; [exact Hprox|]].
  - simpl. unfold reportInfection.
    pose proof (bumpExisting_locations (block_timestamp env) loc (outbreakLocations st))
      as Hmap.
    pose proof (bumpExisting_roomy (block_timestamp env) loc (outbreakLocations st)
                  Hroomy) as Hok.
    destruct (bumpExisting _ loc (outbreakLocations st))
      as [[[locs locationExists] grown]|]; [|discriminate].
    cbn [bind]. specialize (Hmap _ _ _ eq_refl).
    assert (Hlocs' : forallb (fun o => locatable (location o)) locs = true)
      by now rewrite (forallb_map_location locatable locs (outbreakLocations st)).
    unfold checkAndMergeOutbreaks.
    destruct (negb locationExists); simpl outbreakLocations; simpl outbreakRadius.
    + assert (Hall : forallb (fun o => locatable (location o))
                       (locs ++ [mkOutbreakLocation loc 1 (block_timestamp env)])
                     = true)
        by (rewrite forallb_app, Hlocs'; simpl; now rewrite Hloc).
      pose proof (mergeLoop_locatable (block_timestamp env) (outbreakRadius st) loc
                    _ Hloc Hall) as Hm.
      destruct (mergeLoop _ _ loc _) as [nearby|]; [|discriminate].
      cbn [bind]. eexists; eexists; split; [reflexivity|exact Hall].
    + pose proof (mergeLoop_locatable (block_timestamp env) (outbreakRadius st) loc
                    _ Hloc Hlocs') as Hm.
      destruct (mergeLoop _ _ loc _) as [nearby|]; [|discriminate].
      cbn [bind]. eexists; eexists; split; [reflexivity|exact Hlocs'].
  - destruct Hprox as (found & matched & count & distance & E & _).
    simpl. unfold reportNewLocation. rewrite E. cbn [bind].
    destruct found; eexists; reflexivity.
Qed.

Lemma locatable_calls_return_example :
  (exists st' events,
      execute (mkEnv 8 400) (ReportInfection 9 "10.5,20.5" true) afterSecondReport
      = Ok (st', events)
      /\ forallb (fun o => locatable (location o)) (outbreakLocations st') = true)
  /\ (exists found matched count distance,
         checkProximity afterSecondReport "10.5,20.5"
         = Ok (found, matched, count, distance)
         /\ 0 <= distance <= 44756000)
  /\ (exists events,
         execute (mkEnv 8 400) (ReportNewLocation "10.5,20.5") afterSecondReport
         = Ok (afterSecondReport, events)).
Proof.
  apply (locatable_calls_return (mkEnv 8 400) 9 "10.5,20.5" afterSecondReport);
    vm_compute; reflexivity.
Defined.
